(** * Lebwohl-Lasher lattice simulation: a shallow embedding

    The development follows [LebwohlLasher_mpi.py] (the distributed
    driver) and [LebwohlLasher_numpy.py] (the single-process driver).

    Conventions of the embedding:
    - a NumPy array of float64 is a list of real numbers ([R] of the
      standard library); a 2-D array is the list of its rows.  Rounding is
      not modelled: an arithmetic operation on finite values is the exact
      one, so a value computed here is the value of the code up to
      rounding.  What is stated of the code is which cells change, which
      values are combined and in which order, counts, shapes, indices and
      bounds that rounding keeps; results are written with the
      operations of the code.  Where a law of the reals that float64
      lacks would decide a statement (adding and subtracting the same
      number), the updates concerned are also run in binary64
      ([PrimFloat]).
    - a division by the float [0.0] and [np.exp] of an infinity follow
      IEEE 754: see [xfloat].  The real [0] stands for the float [0.0];
      the float [-0.0] has no counterpart.
    - [np.linalg.eig] is a library routine: [eig_max] stands for the
      value it returns, taken to be the largest eigenvalue.  No property
      below depends on that value.
    - Python integers are [Z]; [//] and [%] are [Z.div] and [Z.modulo]
      (both round towards minus infinity, as Python does).
    - the draws of [np.random] and the rows that arrive from the
      neighbouring workers are inputs of the functions that consume them.
    - in-place updates through a view are written as explicit state
      passing: the updated array is returned. *)

From Stdlib Require Import Floats.
From Stdlib Require Import Reals Lra Lia ZArith List Bool Arith.
From Stdlib Require Import ClassicalEpsilon.
Import ListNotations.

Local Open Scope R_scope.

(** ** Arrays *)

Module Np.

Definition array1 := list R.
Definition array2 := list (list R).

(** Element-wise binary operation of two arrays of the same shape. *)
Fixpoint map2 {A B C : Type} (f : A -> B -> C) (l1 : list A) (l2 : list B)
  : list C :=
  match l1, l2 with
  | x :: t1, y :: t2 => f x y :: map2 f t1 t2
  | _, _ => []
  end.

Definition zip2 {A B C : Type} (f : A -> B -> C)
  (a : list (list A)) (b : list (list B)) : list (list C) :=
  map2 (map2 f) a b.

Definition get2 (a : array2) (i j : nat) : R := nth j (nth i a []) 0.

(** [shape a r c]: [a] has [r] rows, each of [c] entries. *)
Definition shape {A : Type} (a : list (list A)) (r c : nat) : Prop :=
  length a = r /\ Forall (fun row => length row = c) a.

(** [np.roll(l, shift=-1)]: entry [i] of the result is entry [i+1] of [l],
    the first entry wraps to the end. *)
Definition roll_m1 {A : Type} (l : list A) : list A :=
  match l with
  | [] => []
  | x :: t => t ++ [x]
  end.

(** [np.roll(l, shift=1)]: entry [i] of the result is entry [i-1] of [l],
    the last entry wraps to the front. *)
Definition roll_p1 {A : Type} (l : list A) : list A :=
  match rev l with
  | [] => []
  | x :: t => x :: rev t
  end.

(** [np.roll(arr, shift, axis=0)] moves whole rows, [axis=1] moves the
    entries of every row. *)
Definition roll_m1_axis0 (a : array2) : array2 := roll_m1 a.
Definition roll_p1_axis0 (a : array2) : array2 := roll_p1 a.
Definition roll_m1_axis1 (a : array2) : array2 := map roll_m1 a.
Definition roll_p1_axis1 (a : array2) : array2 := map roll_p1 a.

Definition sum1 (a : array1) : R := fold_right Rplus 0 a.
(** [np.sum] of a 2-D array: the sum of all its entries. *)
Definition sum2 (a : array2) : R := sum1 (concat a).

End Np.

Import Np.

(** ** Energy model *)

(** One neighbour's contribution, [0.5*(1.0 - 3.0*np.cos(ang)**2)]. *)
Definition en_term (ang : R) : R := 0.5 * (1.0 - 3.0 * (cos ang) ^ 2).

(** The reduced pair energy of two orientations. *)
Definition pair_energy (t1 t2 : R) : R := en_term (t1 - t2).

Definition one_energy_vec (arr : array2) : array2 :=
  let ang_ixp := zip2 Rminus arr (roll_m1_axis0 arr) in
  let ang_ixm := zip2 Rminus arr (roll_p1_axis0 arr) in
  let ang_iyp := zip2 Rminus arr (roll_m1_axis1 arr) in
  let ang_iym := zip2 Rminus arr (roll_p1_axis1 arr) in
  let en := map (map en_term) ang_ixp in
  let en := zip2 Rplus en (map (map en_term) ang_ixm) in
  let en := zip2 Rplus en (map (map en_term) ang_iyp) in
  let en := zip2 Rplus en (map (map en_term) ang_iym) in
  en.

Definition all_energy (arr : array2) : R := sum2 (one_energy_vec arr).

(** ** Order parameter *)

(** A 3x3 matrix, indexed from 0, and a vector of three reals. *)
Definition mat3 := nat -> nat -> R.
Definition vec3 := (R * R * R)%type.

Definition mat_vec (M : mat3) (v : vec3) : vec3 :=
  let '(x, y, z) := v in
  (M 0%nat 0%nat * x + M 0%nat 1%nat * y + M 0%nat 2%nat * z,
   M 1%nat 0%nat * x + M 1%nat 1%nat * y + M 1%nat 2%nat * z,
   M 2%nat 0%nat * x + M 2%nat 1%nat * y + M 2%nat 2%nat * z).

Definition scale_vec (k : R) (v : vec3) : vec3 :=
  let '(x, y, z) := v in (k * x, k * y, k * z).

(** What [np.linalg.eig] approximates for a real symmetric matrix: the
    real numbers [lam] with [M v = lam v] for some non-zero [v]. *)
Definition eigenvalue (M : mat3) (lam : R) : Prop :=
  exists v : vec3, v <> (0, 0, 0) /\ mat_vec M v = scale_vec lam v.

(** [eigenvalues.max()]. *)
Definition max_eigenvalue (M : mat3) (lam : R) : Prop :=
  eigenvalue M lam /\ forall mu, eigenvalue M mu -> mu <= lam.

Definition eig_max (M : mat3) : R :=
  epsilon (inhabits 0) (max_eigenvalue M).

(** [np.eye(3,3)]. *)
Definition delta (a b : nat) : R := if Nat.eqb a b then 1 else 0.

(** [np.vstack((np.cos(arr),np.sin(arr),np.zeros_like(arr)))], one
    component per entry of the list. *)
Definition lab (arr : array2) : list array2 :=
  [map (map cos) arr; map (map sin) arr; map (map (fun _ => 0)) arr].

(** [np.einsum('aij,bij->ab', lab, lab)] at the indices [a], [b]. *)
Definition einsum (l : list array2) (a b : nat) : R :=
  sum2 (zip2 Rmult (nth a l []) (nth b l [])).

Definition Qab (arr : array2) (rows nmax : Z) : mat3 :=
  fun a b =>
    (einsum (lab arr) a b * 3 - IZR (rows * nmax) * delta a b)
    / IZR (2 * rows * nmax).

(** [.reshape(3, rows, nmax)] of an array of [3*n] entries: the two
    trailing dimensions of the result, or [None] when NumPy raises.  One
    of the two may be [-1] and is then inferred from the other, which
    must be positive and divide [n]; no other negative dimension is
    accepted; without [-1] the dimensions must multiply to [n]. *)
Definition reshape_dims (n rows nmax : Z) : option (Z * Z) :=
  if ((0 <=? rows) && (0 <=? nmax))%Z then
    if (rows * nmax =? n)%Z then Some (rows, nmax) else None
  else if ((rows =? -1) && (0 <? nmax))%Z then
    if (n mod nmax =? 0)%Z then Some ((n / nmax)%Z, nmax) else None
  else if ((nmax =? -1) && (0 <? rows))%Z then
    if (n mod rows =? 0)%Z then Some (rows, (n / rows)%Z) else None
  else None.

(** [get_order(arr, rows, nmax)].  It raises, [None], when [reshape]
    does, and when [rows*nmax] is 0: the division by [2*rows*nmax] then
    yields a matrix that [np.linalg.eig] rejects.  The sum of
    [np.einsum] runs over all the cells whatever the two dimensions
    are, and [rows*nmax] enters [Qab] as it is given. *)
Definition get_order (arr : array2) (rows nmax : Z) : option R :=
  match reshape_dims (Z.of_nat (length (concat arr))) rows nmax with
  | None => None
  | Some _ =>
      if (rows * nmax =? 0)%Z then None
      else Some (eig_max (Qab arr rows nmax))
  end.

(** ** Boolean-mask indexing *)

Module Mask.

(** [a[m]] for 1-D arrays: the entries of [a] where [m] holds. *)
Fixpoint select1 {A : Type} (m : list bool) (a : list A) : list A :=
  match m, a with
  | b :: m', x :: a' => if b then x :: select1 m' a' else select1 m' a'
  | _, _ => []
  end.

(** [a[m] = v] for 1-D arrays: the entries of [a] where [m] holds are
    overwritten with the values of [v], in order; the values left over are
    returned as well. *)
Fixpoint assign1 {A : Type} (m : list bool) (a v : list A)
  : list A * list A :=
  match m, a with
  | b :: m', x :: a' =>
      if b then
        match v with
        | y :: v' => let (r, rest) := assign1 m' a' v' in (y :: r, rest)
        | [] => (x :: a', [])
        end
      else let (r, rest) := assign1 m' a' v in (x :: r, rest)
  | _, _ => (a, v)
  end.

(** [a[m]] for 2-D arrays: a 1-D array, in row-major order. *)
Definition select2 {A : Type} (m : list (list bool)) (a : list (list A))
  : list A :=
  concat (map2 select1 m a).

(** [a[m] = v] for 2-D arrays. *)
Fixpoint assign2 {A : Type} (m : list (list bool)) (a : list (list A))
  (v : list A) : list (list A) :=
  match m, a with
  | mr :: m', ar :: a' =>
      let (r, rest) := assign1 mr ar v in r :: assign2 m' a' rest
  | _, _ => a
  end.

End Mask.

Import Mask.

(** ** Metropolis sweep *)

Definition Rleb (x y : R) : bool := if Rle_dec x y then true else false.
Definition Rgeb (x y : R) : bool := if Rge_dec x y then true else false.

(** A float64 that need not be finite: the quotient [-(en1 - en0)/Ts]
    and its exponential are infinite or not a number when [Ts] is [0.0]. *)
Inductive xfloat :=
| Finite (x : R)
| PlusInf
| MinusInf
| NotANumber.

(** [x / y] for finite [x] and [y].  A division by [0.0] gives the
    infinity with the sign of [x], and [0.0 / 0.0] is not a number;
    NumPy warns and goes on. *)
Definition x_div (x y : R) : xfloat :=
  if Req_dec_T y 0 then
    if Rlt_dec 0 x then PlusInf
    else if Rlt_dec x 0 then MinusInf
    else NotANumber
  else Finite (x / y).

(** [np.exp]: [exp(+inf) = +inf], [exp(-inf) = 0.0], [exp(nan) = nan]. *)
Definition x_exp (x : xfloat) : xfloat :=
  match x with
  | Finite v => Finite (exp v)
  | PlusInf => PlusInf
  | MinusInf => Finite 0
  | NotANumber => NotANumber
  end.

(** [x >= u] for a finite [u]: true of [+inf], false of [-inf] and of
    not-a-number. *)
Definition x_geb (x : xfloat) (u : R) : bool :=
  match x with
  | Finite v => Rgeb v u
  | PlusInf => true
  | MinusInf => false
  | NotANumber => false
  end.

(** [np.exp(-(en1 - en0)/Ts)] for one cell. *)
Definition boltz_factor (Ts en1 en0 : R) : xfloat :=
  x_exp (x_div (- (en1 - en0)) Ts).

(** The two in-place updates of a phase.  They are the same statements
    whatever the arithmetic: [add] and [sub] are those of the reals in
    [mc_vec_diagonals] below and those of binary64 in [F64]. *)
Section Updates.

Context {A : Type} (add sub : A -> A -> A).

(** [arr[mask] += aran[mask]]. *)
Definition add_masked (mask : list (list bool)) (arr aran : list (list A))
  : list (list A) :=
  assign2 mask arr (map2 add (select2 mask arr) (select2 mask aran)).

(** [final_cells = arr[mask]],
    [final_cells[~accept_mask] -= aran[mask][~accept_mask]],
    [arr[mask] = final_cells]. *)
Definition subtract_rejected (mask : list (list bool))
  (accept_mask : list bool) (arr aran : list (list A)) : list (list A) :=
  let final_cells := select2 mask arr in
  let reject := map negb accept_mask in
  let final_cells :=
    fst (assign1 reject final_cells
           (map2 sub (select1 reject final_cells)
                     (select1 reject (select2 mask aran)))) in
  assign2 mask arr final_cells.

End Updates.

(** [mc_vec_diagonals(arr, aran, boltz_random, Ts, mask)]: the array after
    the update and the number of accepted proposals. *)
Definition mc_vec_diagonals (arr aran boltz_random : array2) (Ts : R)
  (mask : list (list bool)) : array2 * Z :=
  let en0 := select2 mask (one_energy_vec arr) in
  let arr := add_masked Rplus mask arr aran in
  let en1 := select2 mask (one_energy_vec arr) in
  let boltz := map2 (boltz_factor Ts) en1 en0 in
  let accept_mask :=
    map2 orb (map2 Rleb en1 en0)
             (map2 x_geb boltz (select2 mask boltz_random)) in
  let arr := subtract_rejected Rminus mask accept_mask arr aran in
  let accept := Z.of_nat (count_occ bool_dec accept_mask true) in
  (arr, accept).

(** The same two updates on binary64 cells, with the addition and the
    subtraction of IEEE 754 ([PrimFloat]). *)
Module F64.

Definition add_masked := @add_masked float PrimFloat.add.
Definition subtract_rejected := @subtract_rejected float PrimFloat.sub.


End F64.

(** [np.indices((rows, nmax)).sum(axis = 0) % 2 == 0]. *)
Definition diag_mask_1 (rows nmax : Z) : list (list bool) :=
  map (fun i => map (fun j => Nat.eqb ((i + j) mod 2) 0)
                  (seq 0 (Z.to_nat nmax)))
      (seq 0 (Z.to_nat rows)).

Definition diag_mask_2 (rows nmax : Z) : list (list bool) :=
  map (map negb) (diag_mask_1 rows nmax).

(** The draws of one sweep: [aran] from [np.random.normal] and
    [boltz_random] from [np.random.uniform]. *)
Record draws := { aran : array2; boltz_random : array2 }.

(** [MC_step(arr, rows, nmax, Ts)]: the updated array and the acceptance
    ratio.  [np.random.normal] raises for a negative [scale]: [None].
    With [rows*nmax = 0] the ratio of the code is not a number; no caller
    gets to use it, [get_order] raises on the empty block first. *)
Definition MC_step (arr : array2) (rows nmax : Z) (Ts : R) (d : draws)
  : option (array2 * R) :=
  let scale := 0.1 + Ts in
  if Rlt_dec scale 0 then None
  else
    let accept := 0%Z in
    let '(arr, acc1) :=
      mc_vec_diagonals arr (aran d) (boltz_random d) Ts
        (diag_mask_1 rows nmax) in
    let accept := (accept + acc1)%Z in
    let '(arr, acc2) :=
      mc_vec_diagonals arr (aran d) (boltz_random d) Ts
        (diag_mask_2 rows nmax) in
    let accept := (accept + acc2)%Z in
    Some (arr, IZR accept / IZR (rows * nmax)).

(** ** Python indexing *)

Module Py.

(** A 0-based position for the index [i] of a sequence of [len] entries;
    a negative index counts from the end, [None] is [IndexError]. *)
Definition index (len : nat) (i : Z) : option nat :=
  if (0 <=? i)%Z && (i <? Z.of_nat len)%Z then Some (Z.to_nat i)
  else if (- Z.of_nat len <=? i)%Z && (i <? 0)%Z
       then Some (Z.to_nat (Z.of_nat len + i))
       else None.

Definition getitem {A : Type} (l : list A) (i : Z) : option A :=
  match index (length l) i with
  | Some k => nth_error l k
  | None => None
  end.

Definition set_nth {A : Type} (l : list A) (k : nat) (x : A) : list A :=
  firstn k l ++ x :: skipn (S k) l.

Definition setitem {A : Type} (l : list A) (i : Z) (x : A)
  : option (list A) :=
  match index (length l) i with
  | Some k => Some (set_nth l k x)
  | None => None
  end.

(** A slice bound, clipped to the sequence as Python clips it. *)
Definition bound (len : nat) (i : Z) : nat :=
  if (i <? 0)%Z then Z.to_nat (Z.max 0 (Z.of_nat len + i))
  else Z.to_nat (Z.min i (Z.of_nat len)).

(** [l[a:b]]. *)
Definition slice {A : Type} (l : list A) (a b : Z) : list A :=
  let a' := bound (length l) a in
  let b' := bound (length l) b in
  firstn (b' - a') (skipn a' l).

(** Filling the view [l[a:b]] with [v], as a receive into that buffer
    does; [None] when [v] does not have the size of the view. *)
Definition slice_fill {A : Type} (l : list A) (a b : Z) (v : list A)
  : option (list A) :=
  let a' := bound (length l) a in
  let b' := bound (length l) b in
  if Nat.eqb (length v) (b' - a')
  then Some (firstn a' l ++ v ++ skipn (a' + (b' - a')) l)
  else None.

End Py.

(** ** Distributed driver *)

Definition MAXWORKER : Z := 17.
Definition MINWORKER : Z := 1.
Definition BEGIN : Z := 1.
Definition ABOVE : Z := 2.
Definition BELOW : Z := 3.
Definition DONE : Z := 4.
Definition MASTER : Z := 0.

(** *** Partitioner (coordinator, startup) *)

(** What the coordinator sends to worker [a_dest] with tag [BEGIN]. *)
Record assignment := {
  a_dest : Z;
  a_offset : Z;
  a_rows : Z;
  a_above : Z;
  a_below : Z;
  a_block : array2
}.

(** The row count of worker [i]: [rows = averow], [rows += 1] when
    [i <= extra]. *)
Definition rows_of (averow extra i : Z) : Z :=
  let rows := averow in
  if (i <=? extra)%Z then (rows + 1)%Z else rows.

(** The ring neighbours [(above, below)] of worker [i]. *)
Definition neighbours (numworkers i : Z) : Z * Z :=
  if (i =? 1)%Z then
    (numworkers, if (numworkers >? 1)%Z then 2%Z else 1%Z)
  else if (i =? numworkers)%Z then
    ((numworkers - 1)%Z, 1%Z)
  else
    ((i - 1)%Z, (i + 1)%Z).

(** The body of the distribution loop, for the worker ids that remain;
    [offset] is the loop's running row offset. *)
Fixpoint distribute (lattice : array2) (numworkers averow extra : Z)
  (ids : list Z) (offset : Z) : list assignment :=
  match ids with
  | [] => []
  | i :: ids' =>
      let rows := rows_of averow extra i in
      let '(above, below) := neighbours numworkers i in
      {| a_dest := i; a_offset := offset; a_rows := rows;
         a_above := above; a_below := below;
         a_block := Py.slice lattice offset (offset + rows) |}
      :: distribute lattice numworkers averow extra ids' (offset + rows)%Z
  end.

(** [range(1, numworkers+1)]. *)
Definition worker_ids (numworkers : Z) : list Z :=
  map Z.of_nat (seq 1 (Z.to_nat numworkers)).

(** The distribution of the lattice, reached only after the check of
    the number of workers, so with [numworkers >= 1]. *)
Definition partition (lattice : array2) (nmax numworkers : Z)
  : list assignment :=
  let averow := (nmax / numworkers)%Z in
  let extra := (nmax mod numworkers)%Z in
  let offset := 0%Z in
  distribute lattice numworkers averow extra (worker_ids numworkers) offset.

(** *** Collection (coordinator, end of run) *)

(** What a worker sends back with tag [DONE]. *)
Record done_msg := {
  d_offset : Z;
  d_rows : Z;
  d_block : array2
}.

(** The receive loop: every block lands in
    [lattice[offset_r:offset_r+rows_r, :]]. *)
Fixpoint gather (lattice : array2) (msgs : list done_msg)
  : option array2 :=
  match msgs with
  | [] => Some lattice
  | m :: ms =>
      match Py.slice_fill lattice (d_offset m) (d_offset m + d_rows m)
              (d_block m) with
      | Some lattice' => gather lattice' ms
      | None => None
      end
  end.

(** [comm.Reduce(.., op=MPI.SUM, root=MASTER)]: the element-wise sum of
    the coordinator's buffer and the workers' buffers. *)
Definition reduce_sum (master_local : array1) (workers : list array1)
  : array1 :=
  fold_left (map2 Rplus) workers master_local.

Definition zeros (n : nat) : array1 := repeat 0 n.
Definition zeros2 (r c : nat) : array2 := repeat (zeros c) r.

(** The three series of the coordinator: index 0 holds the initial value,
    [series[1:]] the reduced worker values. *)
Definition energy_series (e0 : R) (master_energy : array1) : array1 :=
  e0 :: master_energy.
Definition ratio_series (master_ratio : array1) (numworkers : Z) : array1 :=
  0.5 :: map (fun x => x / IZR numworkers) master_ratio.
Definition order_series (o0 : R) (master_order : array1) (numworkers : Z)
  : array1 :=
  o0 :: map (fun x => x / IZR numworkers) master_order.

(** [np.mean]. *)
Definition mean (a : array1) : R := sum1 a / INR (length a).

(** The fields of the summary line, before formatting. *)
Record summary := {
  s_size : Z;
  s_steps : Z;
  s_temp : R;
  s_order : R;
  s_mean_ratio : R;
  s_runtime : R
}.

(** The arguments of the final [print] of [main], in both drivers. *)
Definition final_outputs (nmax nsteps : Z) (temp : R)
  (order ratio : array1) (runtime : R) : option summary :=
  match Py.getitem order (nsteps - 1) with
  | Some o =>
      Some {| s_size := nmax; s_steps := nsteps; s_temp := temp;
              s_order := o; s_mean_ratio := mean ratio;
              s_runtime := runtime |}
  | None => None
  end.

(** *** Startup checks *)


(** The check of the coordinator on the number of workers. *)
Definition bad_worker_count (numworkers : Z) : bool :=
  (numworkers >? MAXWORKER)%Z || (numworkers <? MINWORKER)%Z.


(** *** Worker *)

(** The steps of a worker's loop that the trace records, with the loop
    index [it]. *)
Inductive event :=
| EvSweep (it : nat)      (* the call of [MC_step] *)
| EvEnergy (it : nat)     (* the call of [all_energy] *)
| EvOrder (it : nat)      (* the call of [get_order] *)
| EvExchange (it : nat).  (* the four requests and [Waitall] *)

Definition event_eqb (a b : event) : bool :=
  match a, b with
  | EvSweep i, EvSweep j => Nat.eqb i j
  | EvEnergy i, EvEnergy j => Nat.eqb i j
  | EvOrder i, EvOrder j => Nat.eqb i j
  | EvExchange i, EvExchange j => Nat.eqb i j
  | _, _ => false
  end.

(** A row sent to a neighbour. *)
Record message := { m_dest : Z; m_tag : Z; m_row : array1 }.

(** The rows that arrive from the two neighbours in one exchange. *)
Record halo := { from_above : array1; from_below : array1 }.

Record worker_state := {
  local_lattice : array2;
  worker_energy : array1;
  worker_ratio : array1;
  worker_order : array1;
  outbox : list message;
  trace : list event
}.

(** [local_lattice[1:-1, :]], the rows between the two ghost rows. *)
Definition interior (ll : array2) : array2 := removelast (tl ll).

(** The effect on [ll] of an in-place update of the view
    [ll[1:-1, :]]: the rows of the view become [new]. *)
Definition write_interior (ll new : array2) : array2 :=
  firstn 1 ll ++ new ++ skipn (length (tl ll) - 1) (tl ll).

(** Computations of a worker: they read and update the worker's state and
    may raise. *)
Definition W (A : Type) : Type := worker_state -> option (A * worker_state).

Definition ret {A : Type} (x : A) : W A := fun st => Some (x, st).

Definition bind {A B : Type} (m : W A) (k : A -> W B) : W B :=
  fun st =>
    match m st with
    | Some (x, st') => k x st'
    | None => None
    end.

Definition lift {A : Type} (o : option A) : W A :=
  fun st => match o with Some x => Some (x, st) | None => None end.

Definition get_lattice : W array2 := fun st => Some (local_lattice st, st).

Definition put_lattice (ll : array2) : W unit :=
  fun st =>
    Some (tt, {| local_lattice := ll;
                 worker_energy := worker_energy st;
                 worker_ratio := worker_ratio st;
                 worker_order := worker_order st;
                 outbox := outbox st;
                 trace := trace st |}).

Definition log (e : event) : W unit :=
  fun st =>
    Some (tt, {| local_lattice := local_lattice st;
                 worker_energy := worker_energy st;
                 worker_ratio := worker_ratio st;
                 worker_order := worker_order st;
                 outbox := outbox st;
                 trace := trace st ++ [e] |}).

Definition send (dest tag : Z) (row : array1) : W unit :=
  fun st =>
    Some (tt, {| local_lattice := local_lattice st;
                 worker_energy := worker_energy st;
                 worker_ratio := worker_ratio st;
                 worker_order := worker_order st;
                 outbox := outbox st ++
                   [{| m_dest := dest; m_tag := tag; m_row := row |}];
                 trace := trace st |}).

Definition set_ratio (it : nat) (x : R) : W unit :=
  fun st =>
    Some (tt, {| local_lattice := local_lattice st;
                 worker_energy := worker_energy st;
                 worker_ratio := Py.set_nth (worker_ratio st) it x;
                 worker_order := worker_order st;
                 outbox := outbox st;
                 trace := trace st |}).

Definition set_energy (it : nat) (x : R) : W unit :=
  fun st =>
    Some (tt, {| local_lattice := local_lattice st;
                 worker_energy := Py.set_nth (worker_energy st) it x;
                 worker_ratio := worker_ratio st;
                 worker_order := worker_order st;
                 outbox := outbox st;
                 trace := trace st |}).

Definition set_order (it : nat) (x : R) : W unit :=
  fun st =>
    Some (tt, {| local_lattice := local_lattice st;
                 worker_energy := worker_energy st;
                 worker_ratio := worker_ratio st;
                 worker_order := Py.set_nth (worker_order st) it x;
                 outbox := outbox st;
                 trace := trace st |}).

Declare Scope worker_scope.
Delimit Scope worker_scope with worker.
Notation "x <- m ;; k" := (bind m (fun x => k))
  (at level 61, m at next level, right associativity) : worker_scope.
Notation "m ;; k" := (bind m (fun _ => k))
  (at level 61, right associativity) : worker_scope.

Section Worker.

Variables (rows nmax : Z) (temp : R) (above below : Z).

Local Open Scope worker_scope.

(** [MC_step(local_lattice[1:-1, :], rows, nmax, temp)]: the sweep
    updates the interior rows in place and returns the ratio. *)
Definition do_MC_step (it : nat) (d : draws) : W R :=
  log (EvSweep it) ;;
  ll <- get_lattice ;;
  res <- lift (MC_step (interior ll) rows nmax temp d) ;;
  put_lattice (write_interior ll (fst res)) ;;
  ret (snd res).

(** [all_energy(local_lattice[1:-1, :])]. *)
Definition do_all_energy (it : nat) : W R :=
  log (EvEnergy it) ;;
  ll <- get_lattice ;;
  ret (all_energy (interior ll)).

(** [get_order(local_lattice[1:-1, :], rows, nmax)]. *)
Definition do_get_order (it : nat) : W R :=
  log (EvOrder it) ;;
  ll <- get_lattice ;;
  lift (get_order (interior ll) rows nmax).

(** The exchange of the boundary rows: the last and the first interior
    row go to [below] and [above], the rows that arrive fill the last and
    the first row of the local lattice. *)
Definition exchange (it : nat) (h : halo) : W unit :=
  log (EvExchange it) ;;
  ll <- get_lattice ;;
  r1 <- lift (Py.getitem ll (-2)) ;;
  send below ABOVE r1 ;;
  ll2 <- lift (Py.setitem ll (-1) (from_below h)) ;;
  r3 <- lift (Py.getitem ll 1) ;;
  send above BELOW r3 ;;
  ll4 <- lift (Py.setitem ll2 0 (from_above h)) ;;
  put_lattice ll4.

(** The body of the worker's loop for the index [it]. *)
Definition loop_body (it : nat) (d : draws) (h : halo) : W unit :=
  r <- do_MC_step it d ;;
  set_ratio it r ;;
  e <- do_all_energy it ;;
  set_energy it e ;;
  o <- do_get_order it ;;
  set_order it o ;;
  exchange it h.

(** [for it in range(nsteps)], on the indices [its]. *)
Fixpoint loop (its : list nat) (ds : nat -> draws) (hs : nat -> halo)
  : W unit :=
  match its with
  | [] => ret tt
  | it :: its' => loop_body it (ds it) (hs it) ;; loop its' ds hs
  end.

Definition worker_loop (nsteps : Z) (ds : nat -> draws) (hs : nat -> halo)
  : W unit :=
  loop (seq 0 (Z.to_nat nsteps)) ds hs.

(** The state of a worker before its loop: a zero lattice of [rows + 2]
    rows whose interior received the assigned block. *)
Definition worker_init (nsteps : Z) (block : array2) : worker_state :=
  let local := zeros2 (Z.to_nat (rows + 2)) (Z.to_nat nmax) in
  {| local_lattice := write_interior local block;
     worker_energy := zeros (Z.to_nat nsteps);
     worker_ratio := zeros (Z.to_nat nsteps);
     worker_order := zeros (Z.to_nat nsteps);
     outbox := [];
     trace := [] |}.

End Worker.

(** What a worker hands to the coordinator when its loop is over: the
    [DONE] message and its three series for the reductions. *)
Record worker_result := {
  w_done : done_msg;
  w_energy : array1;
  w_order : array1;
  w_ratio : array1
}.

Definition worker_finish (offset rows : Z) (st : worker_state)
  : worker_result :=
  {| w_done := {| d_offset := offset; d_rows := rows;
                  d_block := interior (local_lattice st) |};
     w_energy := worker_energy st;
     w_order := worker_order st;
     w_ratio := worker_ratio st |}.

(** The worker branch of [main]. *)
Definition worker (nsteps nmax : Z) (temp : R) (a : assignment)
  (ds : nat -> draws) (hs : nat -> halo) : option worker_result :=
  match worker_loop (a_rows a) nmax temp (a_above a) (a_below a) nsteps
          ds hs (worker_init (a_rows a) nmax nsteps (a_block a)) with
  | Some (_, st) => Some (worker_finish (a_offset a) (a_rows a) st)
  | None => None
  end.

(** The workers of a run, each on its own assignment, draws and halo
    rows. *)
Definition run_workers (nsteps nmax : Z) (temp : R)
  (asg : list assignment) (ds : Z -> nat -> draws) (hs : Z -> nat -> halo)
  : list (option worker_result) :=
  map (fun a => worker nsteps nmax temp a (ds (a_dest a)) (hs (a_dest a)))
      asg.

(** The number of rows handed out by a list of assignments. *)
Definition total_rows (asg : list assignment) : Z :=
  fold_right (fun a s => (a_rows a + s)%Z) 0%Z asg.

(** The sum of [f 0], ..., [f (n-1)]. *)
Definition sum_over (n : nat) (f : nat -> R) : R :=
  sum1 (map f (seq 0 n)).

(** ** Cell-wise view of a sweep, used to state its properties *)

(** [np.where(m, b, a)], cell by cell. *)
Definition where1 {A : Type} (m : list bool) (a b : list A) : list A :=
  map2 (fun (mi : bool) (p : A * A) => if mi then snd p else fst p)
       m (map2 pair a b).

Definition where2 {A : Type} (m : list (list bool)) (a b : list (list A))
  : list (list A) :=
  zip2 (fun (mi : bool) (p : A * A) => if mi then snd p else fst p)
       m (zip2 pair a b).

Definition getb (m : list (list bool)) (i j : nat) : bool :=
  nth j (nth i m []) false.

(** The lattice after [arr[mask] += aran[mask]], the first update of
    [mc_vec_diagonals]. *)
Definition proposal (mask : list (list bool)) (arr aran : array2)
  : array2 :=
  add_masked Rplus mask arr aran.




(** The Metropolis test of every cell of a block, from the energy fields
    before and after the proposal and the uniform draws. *)
Definition accept_field (Ts : R) (en0 en1 u : array2) : list (list bool) :=
  zip2 orb (zip2 Rleb en1 en0)
           (zip2 x_geb (zip2 (boltz_factor Ts) en1 en0) u).

(** ** Traces *)

(** The events of the loop index [it], in the order of the loop body. *)
Definition events_of_step (it : nat) : list event :=
  [EvSweep it; EvEnergy it; EvOrder it; EvExchange it].

Definition step_of (e : event) : nat :=
  match e with
  | EvSweep it | EvEnergy it | EvOrder it | EvExchange it => it
  end.

(** The position of the first occurrence of [e] in a trace. *)
Fixpoint position (e : event) (tr : list event) : option nat :=
  match tr with
  | [] => None
  | x :: t =>
      if event_eqb e x then Some 0%nat else option_map S (position e t)
  end.

(** Both events occur, [a] earlier than [b]. *)
Definition before (a b : event) (tr : list event) : Prop :=
  exists i j,
    position a tr = Some i /\ position b tr = Some j /\ (i < j)%nat.

(** Step [t] in the order sweep, exchange, measure. *)
Definition sweep_exchange_measure (tr : list event) (t : nat) : Prop :=
  before (EvSweep t) (EvExchange t) tr /\
  before (EvExchange t) (EvEnergy t) tr /\
  before (EvExchange t) (EvOrder t) tr.

(** Step [t] in the order sweep, measure, exchange. *)
Definition sweep_measure_exchange (tr : list event) (t : nat) : Prop :=
  before (EvSweep t) (EvEnergy t) tr /\
  before (EvEnergy t) (EvOrder t) tr /\
  before (EvOrder t) (EvExchange t) tr.

(** What the coordinator gets from a worker whose loop has ended, if it
    has. *)
Definition handed_over (offset rows : Z)
  (res : option (unit * worker_state)) : option worker_result :=
  option_map (fun r => worker_finish offset rows (snd r)) res.

(** Two worker states that differ at most in their two ghost rows and in
    the rows they have sent. *)
Definition same_but_ghosts (st1 st2 : worker_state) : Prop :=
  (exists (g1 g2 g1' g2' : list R) (rows_in : list (list R)),
     local_lattice st1 = g1 :: rows_in ++ [g2] /\
     local_lattice st2 = g1' :: rows_in ++ [g2']) /\
  worker_energy st1 = worker_energy st2 /\
  worker_ratio st1 = worker_ratio st2 /\
  worker_order st1 = worker_order st2 /\
  trace st1 = trace st2.

(** ** A smallest run, for the examples *)

(** One worker with the 1 x 1 block [[0]], proposals and uniform draws
    all 0, and zero rows arriving from the neighbours. *)
Definition draws_zero : nat -> draws :=
  fun _ => {| aran := [[0]]; boltz_random := [[0]] |}.

Definition halo_zero : nat -> halo :=
  fun _ => {| from_above := [0]; from_below := [0] |}.

(** ** One cell moved alone *)

(** The energy cell [(i, j)] of an [r] x [c] block would have if it alone
    carried its proposal, its four neighbours keeping their angles. *)
Definition energy_if_moved (arr aran : array2) (r c i j : nat) : R :=
  let x := get2 arr i j + get2 aran i j in
  pair_energy x (get2 arr ((i + 1) mod r) j)
  + pair_energy x (get2 arr ((i + r - 1) mod r) j)
  + pair_energy x (get2 arr i ((j + 1) mod c))
  + pair_energy x (get2 arr i ((j + c - 1) mod c)).

(** ** Matching the messages of an exchange *)

(** The two rows a worker posts in one exchange ([req1] and [req3]), read
    off its local lattice. *)
Definition halo_sends (above below : Z) (ll : array2)
  : option (list message) :=
  match Py.getitem ll (-2), Py.getitem ll 1 with
  | Some r1, Some r3 =>
      Some [{| m_dest := below; m_tag := ABOVE; m_row := r1 |};
            {| m_dest := above; m_tag := BELOW; m_row := r3 |}]
  | _, _ => None
  end.

(** The row a receive of [me] with a given source and tag completes with:
    the first row among those the source has sent that is addressed to
    [me] with that tag. *)
Definition matching (sent : list message) (me tag : Z) : option array1 :=
  option_map m_row
    (find (fun m => (m_dest m =? me)%Z && (m_tag m =? tag)%Z) sent).

(** The rows the two receives of [me] ([req4] and [req2]) complete with,
    when [sent_by k] are the rows worker [k] has posted. *)
Definition halo_received (sent_by : Z -> list message) (me above below : Z)
  : option halo :=
  match matching (sent_by above) me ABOVE,
        matching (sent_by below) me BELOW with
  | Some ra, Some rb => Some {| from_above := ra; from_below := rb |}
  | _, _ => None
  end.

(** ** The single-process driver, [LebwohlLasher_numpy.py] *)

(** [MC_step(arr, Ts, nmax)] and [get_order(arr, nmax)] of the
    single-process driver are the functions of the distributed driver
    for a square block, [rows = nmax]. *)
Definition MC_step_np (arr : array2) (Ts : R) (nmax : Z) (d : draws)
  : option (array2 * R) :=
  MC_step arr nmax nmax Ts d.

Definition get_order_np (arr : array2) (nmax : Z) : option R :=
  get_order arr nmax nmax.

(** The lattice and the three series of a run. *)
Record run_state := {
  run_lattice : array2;
  run_energy : array1;
  run_ratio : array1;
  run_order : array1
}.

(** The body of the loop of [main] for the index [it]. *)
Definition np_body (nmax : Z) (temp : R) (it : nat) (d : draws)
  (st : run_state) : option run_state :=
  match MC_step_np (run_lattice st) temp nmax d with
  | Some (lattice, r) =>
      match Py.setitem (run_ratio st) (Z.of_nat it) r with
      | Some ratio =>
          match Py.setitem (run_energy st) (Z.of_nat it)
                  (all_energy lattice) with
          | Some energy =>
              match get_order_np lattice nmax with
              | Some o =>
                  match Py.setitem (run_order st) (Z.of_nat it) o with
                  | Some order =>
                      Some {| run_lattice := lattice;
                              run_energy := energy;
                              run_ratio := ratio;
                              run_order := order |}
                  | None => None
                  end
              | None => None
              end
          | None => None
          end
      | None => None
      end
  | None => None
  end.

Fixpoint np_loop (nmax : Z) (temp : R) (its : list nat)
  (ds : nat -> draws) (st : run_state) : option run_state :=
  match its with
  | [] => Some st
  | it :: its' =>
      match np_body nmax temp it (ds it) st with
      | Some st' => np_loop nmax temp its' ds st'
      | None => None
      end
  end.

(** One simulation of [main]: the series are created with [nsteps+1]
    zeros, their entry 0 is set from the initial lattice, then
    [for it in range(1,nsteps+1)]. *)
Definition np_run (nsteps nmax : Z) (temp : R) (lattice : array2)
  (ds : nat -> draws) : option run_state :=
  let energy := zeros (Z.to_nat (nsteps + 1)) in
  let ratio := zeros (Z.to_nat (nsteps + 1)) in
  let order := zeros (Z.to_nat (nsteps + 1)) in
  match Py.setitem energy 0 (all_energy lattice) with
  | Some energy =>
      match Py.setitem ratio 0 0.5 with
      | Some ratio =>
          match get_order_np lattice nmax with
          | Some o0 =>
              match Py.setitem order 0 o0 with
              | Some order =>
                  np_loop nmax temp (seq 1 (Z.to_nat nsteps)) ds
                    {| run_lattice := lattice; run_energy := energy;
                       run_ratio := ratio; run_order := order |}
              | None => None
              end
          | None => None
          end
      | None => None
      end
  | None => None
  end.

(** [main] of the single-process driver: the simulation is written out
    twice, each time on a fresh lattice; the summary is printed after the
    second one. *)
Definition np_main (nsteps nmax : Z) (temp : R)
  (lattice1 : array2) (ds1 : nat -> draws)
  (lattice2 : array2) (ds2 : nat -> draws) (runtime : R)
  : option summary :=
  match np_run nsteps nmax temp lattice1 ds1 with
  | Some _ =>
      match np_run nsteps nmax temp lattice2 ds2 with
      | Some st =>
          final_outputs nmax nsteps temp (run_order st) (run_ratio st)
            runtime
      | None => None
      end
  | None => None
  end.

(** ** The coordinator, from the startup check to the series *)

Fixpoint all_some {A : Type} (l : list (option A)) : option (list A) :=
  match l with
  | [] => Some []
  | Some x :: t =>
      match all_some t with
      | Some xs => Some (x :: xs)
      | None => None
      end
  | None :: _ => None
  end.

(** The coordinator branch of [main] of the distributed driver, with the
    workers it waits for; [None] when the run is aborted or a process
    raises. *)
Definition mpi_master (nsteps nmax : Z) (temp : R) (numworkers : Z)
  (lattice : array2) (ds : Z -> nat -> draws) (hs : Z -> nat -> halo)
  : option run_state :=
  if bad_worker_count numworkers then None
  else if (nsteps <? 0)%Z then None
  else
    let energy0 := all_energy lattice in
    match get_order lattice nmax nmax with
    | Some order0 =>
        let asg := partition lattice nmax numworkers in
        match all_some (run_workers nsteps nmax temp asg ds hs) with
        | Some results =>
            match gather lattice (map w_done results) with
            | Some lattice' =>
                let n := Z.to_nat nsteps in
                let master_energy :=
                  reduce_sum (zeros n) (map w_energy results) in
                let master_order :=
                  reduce_sum (zeros n) (map w_order results) in
                let master_ratio :=
                  reduce_sum (zeros n) (map w_ratio results) in
                Some {| run_lattice := lattice';
                        run_energy := energy_series energy0 master_energy;
                        run_ratio := ratio_series master_ratio numworkers;
                        run_order :=
                          order_series order0 master_order numworkers |}
            | None => None
            end
        | None => None
        end
    | None => None
    end.

(** ** A block on its own *)

(** The block after the sweeps of the steps [its], every sweep followed
    by the two measurements, and the triples (ratio, energy, order) of
    the steps in order. *)
Fixpoint evolve (rows nmax : Z) (temp : R) (its : list nat)
  (ds : nat -> draws) (block : array2)
  : option (array2 * list (R * R * R)) :=
  match its with
  | [] => Some (block, [])
  | it :: its' =>
      match MC_step block rows nmax temp (ds it) with
      | Some (swept, r) =>
          match get_order swept rows nmax with
          | Some o =>
              match evolve rows nmax temp its' ds swept with
              | Some (final, stats) =>
                  Some (final, (r, all_energy swept, o) :: stats)
              | None => None
              end
          | None => None
          end
      | None => None
      end
  end.

Definition stat_ratio (s : R * R * R) : R := fst (fst s).
Definition stat_energy (s : R * R * R) : R := snd (fst s).
Definition stat_order (s : R * R * R) : R := snd s.

(** Blocks that lie one after the other from the row [o] on, each with
    the number of rows it announces. *)
Fixpoint tiled (o : Z) (msgs : list done_msg) : Prop :=
  match msgs with
  | [] => True
  | m :: ms =>
      d_offset m = o /\ (0 <= d_rows m)%Z /\
      Z.of_nat (length (d_block m)) = d_rows m /\
      tiled (o + d_rows m) ms
  end.

Definition rows_of_msgs (msgs : list done_msg) : Z :=
  fold_right (fun m s => (d_rows m + s)%Z) 0%Z msgs.

(** * Properties *)

(** ** Ring of neighbours *)

Lemma neighbours_first (P : Z) :
  neighbours P 1 = (P, if (P >? 1)%Z then 2%Z else 1%Z).
Proof. reflexivity. Qed.

Lemma neighbours_last (P : Z) :
  (1 < P)%Z -> neighbours P P = ((P - 1)%Z, 1%Z).
Proof.
  intros HP. unfold neighbours.
  destruct (Z.eqb_spec P 1) as [E | _]; [lia |].
  now rewrite Z.eqb_refl.
Qed.

Lemma neighbours_inner (P i : Z) :
  (1 < i < P)%Z -> neighbours P i = ((i - 1)%Z, (i + 1)%Z).
Proof.
  intros Hi. unfold neighbours.
  destruct (Z.eqb_spec i 1) as [E | _]; [lia |].
  destruct (Z.eqb_spec i P) as [E | _]; [lia | reflexivity].
Qed.

(** C8: for a worker count [P] between 1 and [MAXWORKER] the neighbour
    assignment is a periodic ring.  Worker 1 has worker [P] above it,
    worker [P] has worker 1 below it, a worker strictly between them has
    [i-1] above and [i+1] below, a single worker is its own neighbour on
    both sides; and the ring closes: every neighbour is a worker, [i] is
    below its above neighbour and above its below neighbour. *)
Theorem neighbours_ring (P : Z) :
  (1 <= P <= MAXWORKER)%Z ->
  fst (neighbours P 1) = P /\
  snd (neighbours P P) = 1%Z /\
  (forall i, (1 < i < P)%Z ->
     neighbours P i = ((i - 1)%Z, (i + 1)%Z)) /\
  (P = 1%Z -> neighbours P 1 = (1%Z, 1%Z)) /\
  (forall i, (1 <= i <= P)%Z ->
     let (a, b) := neighbours P i in
     (1 <= a <= P)%Z /\ (1 <= b <= P)%Z /\
     snd (neighbours P a) = i /\ fst (neighbours P b) = i).
Proof.
  intros HP. split; [reflexivity |]. split.
  { destruct (Z.eq_dec P 1) as [-> | N1]; [reflexivity |].
    rewrite neighbours_last by lia. reflexivity. }
  split; [apply neighbours_inner |]. split.
  { intros ->. reflexivity. }
  intros i Hi.
  destruct (Z.eq_dec i 1) as [-> | N1].
  - rewrite neighbours_first.
    destruct (Z.gtb_spec P 1) as [G | G].
    + repeat split; try lia.
      * rewrite neighbours_last by lia. reflexivity.
      * destruct (Z.eq_dec P 2) as [-> | N2]; [reflexivity |].
        rewrite neighbours_inner by lia. simpl. lia.
    + assert (P = 1%Z) as -> by lia. repeat split; lia.
  - destruct (Z.eq_dec i P) as [-> | NP].
    + rewrite neighbours_last by lia.
      repeat split; try lia.
      destruct (Z.eq_dec P 2) as [-> | N2]; [reflexivity |].
      rewrite neighbours_inner by lia. simpl. lia.
    + rewrite neighbours_inner by lia.
      repeat split; try lia.
      * destruct (Z.eq_dec (i - 1) 1) as [E | N2].
        -- rewrite E, neighbours_first.
           destruct (Z.gtb_spec P 1); simpl; lia.
        -- rewrite neighbours_inner by lia. simpl. lia.
      * destruct (Z.eq_dec (i + 1) P) as [E | N2].
        -- rewrite E, neighbours_last by lia. simpl. lia.
        -- rewrite neighbours_inner by lia. simpl. lia.
Qed.

Lemma neighbours_ring_witness :
  fst (neighbours 3 1) = 3%Z /\
  snd (neighbours 3 3) = 1%Z /\
  (forall i, (1 < i < 3)%Z ->
     neighbours 3 i = ((i - 1)%Z, (i + 1)%Z)) /\
  (3%Z = 1%Z -> neighbours 3 1 = (1%Z, 1%Z)) /\
  (forall i, (1 <= i <= 3)%Z ->
     let (a, b) := neighbours 3 i in
     (1 <= a <= 3)%Z /\ (1 <= b <= 3)%Z /\
     snd (neighbours 3 a) = i /\ fst (neighbours 3 b) = i).
Proof.
  apply (neighbours_ring 3). unfold MAXWORKER. lia.
Defined.

(** ** Partition and collection *)

Lemma firstn_plus {A : Type} (n m : nat) (l : list A) :
  firstn (n + m) l = firstn n l ++ firstn m (skipn n l).
Proof.
  revert l. induction n as [| n IH]; intros l; simpl.
  - reflexivity.
  - destruct l as [| x l]; simpl.
    + now rewrite firstn_nil.
    + now rewrite IH.
Qed.

Section Partition.

Variable lattice : array2.
Variables numworkers averow extra : Z.
Hypothesis averow_nonneg : (0 <= averow)%Z.

Lemma rows_of_nonneg i : (0 <= rows_of averow extra i)%Z.
Proof. unfold rows_of. destruct (i <=? extra)%Z; lia. Qed.

Lemma bound_inside (len : nat) (i : Z) :
  (0 <= i <= Z.of_nat len)%Z -> Py.bound len i = Z.to_nat i.
Proof.
  intros Hi. unfold Py.bound.
  destruct (Z.ltb_spec i 0) as [L | _]; [lia |].
  f_equal. lia.
Qed.

Lemma distribute_dest ids offset :
  map a_dest (distribute lattice numworkers averow extra ids offset) = ids.
Proof.
  revert offset. induction ids as [| i ids IH]; intros offset; simpl.
  - reflexivity.
  - destruct (neighbours numworkers i). simpl. now rewrite IH.
Qed.

Lemma distribute_rows ids offset :
  map a_rows (distribute lattice numworkers averow extra ids offset)
  = map (rows_of averow extra) ids.
Proof.
  revert offset. induction ids as [| i ids IH]; intros offset; simpl.
  - reflexivity.
  - destruct (neighbours numworkers i). simpl. now rewrite IH.
Qed.

Lemma distribute_neighbours ids offset a :
  In a (distribute lattice numworkers averow extra ids offset) ->
  (a_above a, a_below a) = neighbours numworkers (a_dest a).
Proof.
  revert offset. induction ids as [| i ids IH]; intros offset; simpl.
  - intros [].
  - destruct (neighbours numworkers i) eqn:E. simpl.
    intros [<- | H]; [simpl; now rewrite E | eauto].
Qed.

Lemma total_rows_nonneg ids offset :
  (0 <= total_rows
          (distribute lattice numworkers averow extra ids offset))%Z.
Proof.
  revert offset. induction ids as [| i ids IH]; intros offset; simpl.
  - lia.
  - destruct (neighbours numworkers i). simpl.
    pose proof (rows_of_nonneg i). specialize (IH (offset + rows_of averow extra i)%Z). lia.
Qed.

(** The offset sent to a worker is the start offset plus the rows of the
    workers served before it. *)
Lemma distribute_offsets ids offset k a :
  nth_error (distribute lattice numworkers averow extra ids offset) k
  = Some a ->
  a_offset a
  = (offset + total_rows
       (firstn k (distribute lattice numworkers averow extra ids offset)))%Z.
Proof.
  revert offset k. induction ids as [| i ids IH]; intros offset k; simpl.
  - destruct k; discriminate.
  - destruct (neighbours numworkers i). destruct k as [| k]; simpl.
    + intros [= <-]. simpl. lia.
    + intros H. rewrite (IH _ _ H). lia.
Qed.

(** The blocks are consecutive bands of the lattice. *)
Lemma distribute_blocks ids offset :
  (0 <= offset)%Z ->
  (offset + total_rows
     (distribute lattice numworkers averow extra ids offset)
   <= Z.of_nat (length lattice))%Z ->
  concat (map a_block
            (distribute lattice numworkers averow extra ids offset))
  = firstn (Z.to_nat (total_rows
              (distribute lattice numworkers averow extra ids offset)))
           (skipn (Z.to_nat offset) lattice)
  /\ Forall (fun a => Z.of_nat (length (a_block a)) = a_rows a)
       (distribute lattice numworkers averow extra ids offset).
Proof.
  revert offset. induction ids as [| i ids IH]; intros offset Ho Hb; simpl.
  - split; [reflexivity | constructor].
  - simpl in Hb. destruct (neighbours numworkers i). simpl in *.
    pose proof (rows_of_nonneg i) as Hr.
    pose proof (total_rows_nonneg ids (offset + rows_of averow extra i)) as Ht.
    specialize (IH (offset + rows_of averow extra i)%Z).
    remember (rows_of averow extra i) as r eqn:Er.
    remember (distribute lattice numworkers averow extra ids (offset + r))
      as rest eqn:Erest.
    destruct IH as [IH1 IH2]; [lia | lia |].
    assert (Hs : Py.slice lattice offset (offset + r)
                 = firstn (Z.to_nat r) (skipn (Z.to_nat offset) lattice)).
    { unfold Py.slice. rewrite !bound_inside by lia.
      f_equal. lia. }
    split.
    + rewrite IH1, Hs.
      replace (Z.to_nat (r + total_rows rest))
        with (Z.to_nat r + Z.to_nat (total_rows rest))%nat by lia.
      rewrite firstn_plus. f_equal. rewrite skipn_skipn.
      do 2 f_equal. lia.
    + constructor; [| exact IH2]. simpl. rewrite Hs.
      rewrite length_firstn, length_skipn. lia.
Qed.

(** Collecting the blocks, unchanged, into any buffer of the size of the
    lattice overwrites exactly the rows they came from. *)
Lemma gather_distribute ids offset buffer :
  (0 <= offset)%Z ->
  length buffer = length lattice ->
  (offset + total_rows
     (distribute lattice numworkers averow extra ids offset)
   <= Z.of_nat (length lattice))%Z ->
  gather buffer
    (map (fun a => {| d_offset := a_offset a; d_rows := a_rows a;
                      d_block := a_block a |})
         (distribute lattice numworkers averow extra ids offset))
  = Some (firstn (Z.to_nat offset) buffer
          ++ firstn (Z.to_nat (total_rows
               (distribute lattice numworkers averow extra ids offset)))
               (skipn (Z.to_nat offset) lattice)
          ++ skipn (Z.to_nat (offset + total_rows
               (distribute lattice numworkers averow extra ids offset)))
               buffer).
Proof.
  revert offset buffer.
  induction ids as [| i ids IH]; intros offset buffer Ho Hl Hb; simpl.
  - rewrite Z.add_0_r. simpl. now rewrite firstn_skipn.
  - simpl in Hb. destruct (neighbours numworkers i). simpl in *.
    pose proof (rows_of_nonneg i) as Hr.
    pose proof (total_rows_nonneg ids (offset + rows_of averow extra i)) as Ht.
    pose proof (fun b => IH (offset + rows_of averow extra i)%Z b) as IH'.
    clear IH.
    remember (rows_of averow extra i) as r eqn:Er.
    remember (distribute lattice numworkers averow extra ids (offset + r))
      as rest eqn:Erest.
    assert (Hs : Py.slice lattice offset (offset + r)
                 = firstn (Z.to_nat r) (skipn (Z.to_nat offset) lattice)).
    { unfold Py.slice. rewrite !bound_inside by lia. f_equal. lia. }
    assert (Hlen : length (Py.slice lattice offset (offset + r))
                   = Z.to_nat r).
    { rewrite Hs, length_firstn, length_skipn. lia. }
    unfold Py.slice_fill. rewrite Hl, !bound_inside by lia.
    replace (Z.to_nat (offset + r) - Z.to_nat offset)%nat
      with (Z.to_nat r) by lia.
    rewrite Hlen, Nat.eqb_refl.
    remember (Z.to_nat offset) as o eqn:Eo.
    remember (firstn o buffer ++ Py.slice lattice offset (offset + r)
              ++ skipn (o + Z.to_nat r) buffer) as buffer' eqn:Eb.
    assert (Hl' : length buffer' = length lattice).
    { rewrite Eb, !length_app, Hlen, length_firstn, length_skipn. lia. }
    rewrite (IH' buffer') by (auto; lia).
    f_equal.
    replace (Z.to_nat (offset + r)) with (o + Z.to_nat r)%nat by lia.
    replace (Z.to_nat (r + total_rows rest))
      with (Z.to_nat r + Z.to_nat (total_rows rest))%nat by lia.
    replace (Z.to_nat (offset + (r + total_rows rest)))
      with (o + Z.to_nat r + Z.to_nat (total_rows rest))%nat by lia.
    replace (Z.to_nat (offset + r + total_rows rest))
      with (o + Z.to_nat r + Z.to_nat (total_rows rest))%nat by lia.
    assert (Hf : firstn (o + Z.to_nat r) buffer'
                 = firstn o buffer ++ Py.slice lattice offset (offset + r)).
    { rewrite Eb. rewrite app_assoc. rewrite firstn_app.
      rewrite length_app, Hlen, length_firstn.
      replace (o + Z.to_nat r - (Nat.min o (length buffer) + Z.to_nat r))%nat
        with 0%nat by lia.
      simpl. rewrite app_nil_r. apply firstn_all2.
      rewrite length_app, Hlen, length_firstn. lia. }
    assert (Hk : skipn (o + Z.to_nat r + Z.to_nat (total_rows rest)) buffer'
                 = skipn (o + Z.to_nat r + Z.to_nat (total_rows rest)) buffer).
    { rewrite Eb. rewrite app_assoc, skipn_app.
      rewrite length_app, Hlen, length_firstn.
      rewrite (skipn_all2 (firstn o buffer ++ _))
        by (rewrite length_app, Hlen, length_firstn; lia).
      simpl. rewrite skipn_skipn. f_equal. lia. }
    rewrite Hf, Hk, Hs, <- !app_assoc. f_equal.
    rewrite firstn_plus, <- app_assoc. f_equal. f_equal.
    rewrite skipn_skipn. do 2 f_equal. lia.
Qed.

End Partition.

Lemma total_rows_seq lattice numworkers averow extra n s offset :
  total_rows (distribute lattice numworkers averow extra
                (map Z.of_nat (seq s n)) offset)
  = (Z.of_nat n * averow
     + Z.max 0 (Z.min (extra - Z.of_nat s + 1) (Z.of_nat n)))%Z.
Proof.
  revert s offset. induction n as [| n IH]; intros s offset; simpl seq; simpl map.
  - simpl. lia.
  - simpl distribute. destruct (neighbours numworkers (Z.of_nat s)).
    simpl total_rows. rewrite IH. unfold rows_of.
    destruct (Z.leb_spec (Z.of_nat s) extra); lia.
Qed.

Lemma total_rows_partition lattice nmax numworkers :
  (1 <= numworkers)%Z ->
  total_rows (partition lattice nmax numworkers) = nmax.
Proof.
  intros HP. unfold partition, worker_ids. rewrite total_rows_seq.
  pose proof (Z.mod_pos_bound nmax numworkers ltac:(lia)) as Hm.
  pose proof (Z.div_mod nmax numworkers ltac:(lia)) as Hd.
  rewrite Z2Nat.id by lia. simpl Z.of_nat. nia.
Qed.

Lemma last_row_alone {A : Type} (t : list A) :
  t <> [] -> exists x, skipn (length t - 1) t = [x].
Proof.
  intros Ht.
  assert (Hl : length (skipn (length t - 1) t) = 1%nat).
  { rewrite length_skipn. destruct t; [congruence | cbn [length]; lia]. }
  destruct (skipn (length t - 1) t) as [| x [| y l]]; try discriminate.
  now exists x.
Qed.

(** The rows written through the view are the rows the view shows. *)
Lemma interior_write_interior (ll new : array2) :
  (2 <= length ll)%nat -> interior (write_interior ll new) = new.
Proof.
  intros Hl. destruct ll as [| g t]; [simpl in Hl; lia |].
  destruct (last_row_alone t) as [x Hx].
  { destruct t; [simpl in Hl; lia | discriminate]. }
  unfold write_interior, interior. cbn [tl firstn].
  rewrite Hx. cbn [app tl]. apply removelast_last.
Qed.

(** A worker that runs no step sends back the block it received. *)
Lemma worker_no_step nmax temp a ds hs :
  (0 <= a_rows a)%Z ->
  option_map w_done (worker 0 nmax temp a ds hs)
  = Some {| d_offset := a_offset a; d_rows := a_rows a;
            d_block := a_block a |}.
Proof.
  intros Hr. unfold worker, worker_loop. simpl.
  unfold worker_finish. simpl. do 2 f_equal.
  apply interior_write_interior.
  unfold zeros2. rewrite repeat_length. lia.
Qed.

Lemma run_workers_no_step nmax temp asg ds hs :
  Forall (fun a => (0 <= a_rows a)%Z) asg ->
  exists rs,
    run_workers 0 nmax temp asg ds hs = map Some rs /\
    map w_done rs
    = map (fun a => {| d_offset := a_offset a; d_rows := a_rows a;
                       d_block := a_block a |}) asg.
Proof.
  induction 1 as [| a asg Ha _ [rs [IH1 IH2]]].
  - exists []. split; reflexivity.
  - pose proof (worker_no_step nmax temp a (ds (a_dest a)) (hs (a_dest a)) Ha)
      as Hw.
    destruct (worker 0 nmax temp a (ds (a_dest a)) (hs (a_dest a)))
      as [r |] eqn:E; [| discriminate].
    simpl in Hw. injection Hw as Hw.
    exists (r :: rs). split; simpl.
    + unfold run_workers in *. simpl. now rewrite E, IH1.
    + now rewrite Hw, IH2.
Qed.

(** C7: for a lattice of [N] rows and [P] workers with [1 <= P <= N], the
    partitioner serves the workers 1..P in turn; worker [i] gets [N/P]
    rows and one more when [i <= N%P], so that two blocks differ by at
    most one row; the offset of a worker is the number of rows served
    before it, starting at 0; the blocks have the announced sizes, cover
    [N] rows together and, laid end to end, are the lattice (no gap, no
    row twice); and collecting the blocks at their offsets, after a run of
    no step, into any buffer of [N] rows gives back the lattice. *)
Theorem partition_round_trip (lattice buffer : array2) (N P : Z)
  (temp : R) (ds : Z -> nat -> draws) (hs : Z -> nat -> halo) :
  Z.of_nat (length lattice) = N ->
  length buffer = length lattice ->
  (1 <= P <= N)%Z ->
  let asg := partition lattice N P in
  map a_dest asg = worker_ids P /\
  (forall a, In a asg ->
     a_rows a = (N / P + if (a_dest a <=? N mod P)%Z then 1 else 0)%Z) /\
  (forall a b, In a asg -> In b asg ->
     (Z.abs (a_rows a - a_rows b) <= 1)%Z) /\
  (forall k a, nth_error asg k = Some a ->
     a_offset a = total_rows (firstn k asg)) /\
  total_rows asg = N /\
  Forall (fun a => Z.of_nat (length (a_block a)) = a_rows a) asg /\
  concat (map a_block asg) = lattice /\
  exists rs,
    run_workers 0 N temp asg ds hs = map Some rs /\
    gather buffer (map w_done rs) = Some lattice.
Proof.
  intros HN Hbuf HP asg.
  assert (Hav : (0 <= N / P)%Z) by (apply Z.div_pos; lia).
  assert (Hrows : forall a, In a asg ->
            a_rows a = rows_of (N / P) (N mod P) (a_dest a)).
  { intros a Ha. unfold asg, partition in Ha.
    apply In_nth_error in Ha. destruct Ha as [k Hk].
    pose proof (distribute_rows lattice P (N / P) (N mod P) (worker_ids P) 0)
      as E1.
    pose proof (distribute_dest lattice P (N / P) (N mod P) (worker_ids P) 0)
      as E2.
    apply (f_equal (fun l => nth_error l k)) in E1.
    rewrite nth_error_map, Hk in E1. simpl in E1.
    apply (f_equal (fun l => nth_error l k)) in E2.
    rewrite nth_error_map, Hk in E2. simpl in E2.
    rewrite nth_error_map, <- E2 in E1. simpl in E1. congruence. }
  assert (Htot : total_rows asg = N) by (apply total_rows_partition; lia).
  assert (Hblocks := distribute_blocks lattice P (N / P) (N mod P) Hav
                       (worker_ids P) 0 ltac:(lia)).
  fold (partition lattice N P) in Hblocks. fold asg in Hblocks.
  rewrite Htot in Hblocks.
  destruct Hblocks as [Hcat Hlen]; [lia |].
  simpl skipn in Hcat. rewrite <- HN, Nat2Z.id, firstn_all in Hcat.
  split; [apply distribute_dest |].
  split.
  { intros a Ha. rewrite (Hrows a Ha). unfold rows_of.
    destruct (a_dest a <=? N mod P)%Z; lia. }
  split.
  { intros a b Ha Hb. rewrite (Hrows a Ha), (Hrows b Hb). unfold rows_of.
    destruct (a_dest a <=? N mod P)%Z, (a_dest b <=? N mod P)%Z; lia. }
  split.
  { intros k a Hk. unfold asg, partition in *.
    rewrite (distribute_offsets _ _ _ _ _ _ _ _ Hk). lia. }
  split; [exact Htot |].
  split; [exact Hlen |].
  split; [exact Hcat |].
  destruct (run_workers_no_step N temp asg ds hs) as [rs [Hrs Hdone]].
  { apply Forall_forall. intros a Ha. rewrite (Hrows a Ha).
    now apply rows_of_nonneg. }
  exists rs. split; [exact Hrs |]. rewrite Hdone.
  unfold asg, partition.
  rewrite (gather_distribute lattice P (N / P) (N mod P) Hav); auto;
    try lia.
  - fold (partition lattice N P). fold asg. rewrite Htot.
    simpl. rewrite <- HN, Nat2Z.id, firstn_all.
    rewrite skipn_all2 by lia. now rewrite app_nil_r.
  - fold (partition lattice N P). fold asg. lia.
Qed.

Lemma partition_round_trip_witness :
  let lattice := [[0; 1; 2]; [3; 4; 5]; [6; 7; 8]] in
  total_rows (partition lattice 3 2) = 3%Z /\
  concat (map a_block (partition lattice 3 2)) = lattice.
Proof.
  intros lattice.
  pose proof (partition_round_trip lattice (zeros2 3 3) 3 2 0
                (fun _ _ => {| aran := []; boltz_random := [] |})
                (fun _ _ => {| from_above := []; from_below := [] |})
                eq_refl eq_refl ltac:(lia)) as H.
  destruct H as (_ & _ & _ & _ & H5 & _ & H7 & _).
  split; assumption.
Defined.

(** ** Arrays: element-wise operations and rolls *)

Section ArrayLemmas.

Context {A B C : Type}.

Lemma length_map2 (f : A -> B -> C) l1 l2 :
  length (map2 f l1 l2) = Nat.min (length l1) (length l2).
Proof.
  revert l2. induction l1 as [| x l1 IH]; intros [| y l2]; simpl; auto.
Qed.

Lemma nth_map2 (f : A -> B -> C) l1 l2 i d1 d2 d :
  (i < length l1)%nat -> (i < length l2)%nat ->
  nth i (map2 f l1 l2) d = f (nth i l1 d1) (nth i l2 d2).
Proof.
  revert l2 i. induction l1 as [| x l1 IH]; intros [| y l2] [| i];
    simpl; intros H1 H2; try lia; auto.
  apply IH; lia.
Qed.

Lemma length_roll_m1 (l : list A) : length (roll_m1 l) = length l.
Proof.
  destruct l; simpl; [reflexivity |].
  rewrite length_app. simpl. lia.
Qed.

Lemma roll_p1_snoc (l : list A) (x : A) : roll_p1 (l ++ [x]) = x :: l.
Proof.
  unfold roll_p1. rewrite rev_app_distr. simpl. now rewrite rev_involutive.
Qed.

Lemma length_roll_p1 (l : list A) : length (roll_p1 l) = length l.
Proof.
  destruct (rev l) as [| x t] eqn:E.
  - unfold roll_p1. rewrite E.
    apply (f_equal (@rev A)) in E. rewrite rev_involutive in E. now subst.
  - apply (f_equal (@rev A)) in E. rewrite rev_involutive in E. simpl in E.
    subst l. rewrite roll_p1_snoc, length_app. simpl. lia.
Qed.

(** Entry [i] of [np.roll(l, -1)] is entry [i+1] of [l], cyclically. *)
Lemma nth_roll_m1 (l : list A) i d :
  (i < length l)%nat ->
  nth i (roll_m1 l) d = nth ((i + 1) mod length l) l d.
Proof.
  destruct l as [| x t]; simpl length; [lia |]. intros Hi.
  unfold roll_m1.
  destruct (Nat.eq_dec i (length t)) as [-> | Hne].
  - rewrite app_nth2 by lia. rewrite Nat.sub_diag.
    replace (length t + 1)%nat with (S (length t)) by lia.
    now rewrite Nat.Div0.mod_same.
  - rewrite app_nth1 by lia.
    rewrite Nat.mod_small by lia.
    replace (i + 1)%nat with (S i) by lia. reflexivity.
Qed.

(** Entry [i] of [np.roll(l, 1)] is entry [i-1] of [l], cyclically. *)
Lemma nth_roll_p1 (l : list A) i d :
  (i < length l)%nat ->
  nth i (roll_p1 l) d = nth ((i + length l - 1) mod length l) l d.
Proof.
  intros Hi.
  destruct (rev l) as [| x t] eqn:E;
    apply (f_equal (@rev A)) in E; rewrite rev_involutive in E; simpl in E;
    subst l; [simpl in Hi; lia |].
  rewrite roll_p1_snoc. rewrite length_app in *. simpl length in *.
  set (n := length (rev t)) in *.
  destruct i as [| k].
  - replace (0 + (n + 1) - 1)%nat with n by lia.
    rewrite Nat.mod_small by lia.
    rewrite app_nth2 by lia. fold n. now rewrite Nat.sub_diag.
  - replace (S k + (n + 1) - 1)%nat with (k + 1 * (n + 1))%nat by lia.
    rewrite Nat.Div0.mod_add, Nat.mod_small by lia.
    rewrite app_nth1 by lia. reflexivity.
Qed.

End ArrayLemmas.

Lemma shape_row {A : Type} (a : list (list A)) r c i :
  shape a r c -> (i < r)%nat -> length (nth i a []) = c.
Proof.
  intros [Hr Hc] Hi. rewrite Forall_forall in Hc.
  apply Hc, nth_In. lia.
Qed.

Section ShapeLemmas.

Context {A B C : Type}.

Lemma shape_zip2 (f : A -> B -> C) a b r c :
  shape a r c -> shape b r c -> shape (zip2 f a b) r c.
Proof.
  intros [Ha Fa] [Hb Fb]. split.
  - unfold zip2. rewrite length_map2. lia.
  - clear Ha Hb. revert b Fb.
    induction Fa as [| x a Hx _ IH]; intros [| y b] Fb; simpl;
      try constructor.
    + rewrite length_map2. inversion Fb; subst. lia.
    + apply IH. now inversion Fb.
Qed.

Lemma shape_map (f : A -> B) (a : list (list A)) r c :
  shape a r c -> shape (map (map f) a) r c.
Proof.
  intros [Ha Fa]. split.
  - now rewrite length_map.
  - rewrite Forall_map. eapply Forall_impl; [| exact Fa].
    intros row Hrow. simpl. now rewrite length_map.
Qed.

Lemma nth_zip2 (f : A -> B -> C) a b r c i j da db dc :
  shape a r c -> shape b r c -> (i < r)%nat -> (j < c)%nat ->
  nth j (nth i (zip2 f a b) []) dc
  = f (nth j (nth i a []) da) (nth j (nth i b []) db).
Proof.
  intros Sa Sb Hi Hj. unfold zip2.
  rewrite (nth_map2 _ _ _ _ [] []) by (destruct Sa, Sb; lia).
  apply nth_map2.
  - now rewrite (shape_row a r c).
  - now rewrite (shape_row b r c).
Qed.

Lemma nth_map_map (f : A -> B) (a : list (list A)) r c i j da db :
  shape a r c -> (i < r)%nat -> (j < c)%nat ->
  nth j (nth i (map (map f) a) []) db = f (nth j (nth i a []) da).
Proof.
  intros Sa Hi Hj.
  change (@nil B) with (map f []). rewrite map_nth.
  rewrite (nth_indep _ db (f da)).
  - apply map_nth.
  - rewrite length_map. now rewrite (shape_row a r c).
Qed.

Lemma Forall_roll_m1 (P : A -> Prop) l :
  Forall P l -> Forall P (roll_m1 l).
Proof.
  intros H. destruct l as [| x t]; simpl; [constructor |].
  inversion H; subst. apply Forall_app. split; auto.
Qed.

Lemma Forall_roll_p1 (P : A -> Prop) l :
  Forall P l -> Forall P (roll_p1 l).
Proof.
  intros H.
  destruct (rev l) as [| x t] eqn:E;
    apply (f_equal (@rev A)) in E; rewrite rev_involutive in E; simpl in E;
    subst l; [constructor |].
  rewrite roll_p1_snoc. apply Forall_app in H. destruct H as [H1 H2].
  inversion H2; subst. now constructor.
Qed.

End ShapeLemmas.

Lemma shape_roll_m1_axis0 a r c :
  shape a r c -> shape (roll_m1_axis0 a) r c.
Proof.
  intros [Ha Fa]. split.
  - unfold roll_m1_axis0. now rewrite length_roll_m1.
  - now apply Forall_roll_m1.
Qed.

Lemma shape_roll_p1_axis0 a r c :
  shape a r c -> shape (roll_p1_axis0 a) r c.
Proof.
  intros [Ha Fa]. split.
  - unfold roll_p1_axis0. now rewrite length_roll_p1.
  - now apply Forall_roll_p1.
Qed.

Lemma shape_roll_m1_axis1 a r c :
  shape a r c -> shape (roll_m1_axis1 a) r c.
Proof.
  intros [Ha Fa]. split.
  - unfold roll_m1_axis1. now rewrite length_map.
  - unfold roll_m1_axis1. rewrite Forall_map.
    eapply Forall_impl; [| exact Fa]. intros row Hrow. simpl.
    now rewrite length_roll_m1.
Qed.

Lemma shape_roll_p1_axis1 a r c :
  shape a r c -> shape (roll_p1_axis1 a) r c.
Proof.
  intros [Ha Fa]. split.
  - unfold roll_p1_axis1. now rewrite length_map.
  - unfold roll_p1_axis1. rewrite Forall_map.
    eapply Forall_impl; [| exact Fa]. intros row Hrow. simpl.
    now rewrite length_roll_p1.
Qed.

Lemma get2_roll_m1_axis0 a r c i j :
  shape a r c -> (i < r)%nat ->
  get2 (roll_m1_axis0 a) i j = get2 a ((i + 1) mod r) j.
Proof.
  intros [Ha _] Hi. unfold get2, roll_m1_axis0.
  rewrite nth_roll_m1 by lia. now rewrite Ha.
Qed.

Lemma get2_roll_p1_axis0 a r c i j :
  shape a r c -> (i < r)%nat ->
  get2 (roll_p1_axis0 a) i j = get2 a ((i + r - 1) mod r) j.
Proof.
  intros [Ha _] Hi. unfold get2, roll_p1_axis0.
  rewrite nth_roll_p1 by lia. now rewrite Ha.
Qed.

Lemma get2_roll_m1_axis1 a r c i j :
  shape a r c -> (i < r)%nat -> (j < c)%nat ->
  get2 (roll_m1_axis1 a) i j = get2 a i ((j + 1) mod c).
Proof.
  intros Sa Hi Hj. unfold get2, roll_m1_axis1.
  change (@nil R) with (roll_m1 (@nil R)) at 1. rewrite map_nth.
  rewrite nth_roll_m1 by (now rewrite (shape_row a r c)).
  now rewrite (shape_row a r c).
Qed.

Lemma get2_roll_p1_axis1 a r c i j :
  shape a r c -> (i < r)%nat -> (j < c)%nat ->
  get2 (roll_p1_axis1 a) i j = get2 a i ((j + c - 1) mod c).
Proof.
  intros Sa Hi Hj. unfold get2, roll_p1_axis1.
  change (@nil R) with (roll_p1 (@nil R)) at 1. rewrite map_nth.
  rewrite nth_roll_p1 by (now rewrite (shape_row a r c)).
  now rewrite (shape_row a r c).
Qed.

Lemma get2_zip2 f a b r c i j :
  shape a r c -> shape b r c -> (i < r)%nat -> (j < c)%nat ->
  get2 (zip2 f a b) i j = f (get2 a i j) (get2 b i j).
Proof. intros. unfold get2. now apply (nth_zip2 f a b r c). Qed.

Lemma get2_map f a r c i j :
  shape a r c -> (i < r)%nat -> (j < c)%nat ->
  get2 (map (map f) a) i j = f (get2 a i j).
Proof. intros. unfold get2. now apply (nth_map_map f a r c). Qed.

(** ** Energy *)

Lemma shape_one_energy_vec arr r c :
  shape arr r c -> shape (one_energy_vec arr) r c.
Proof.
  intros S. unfold one_energy_vec.
  repeat first [ apply shape_zip2 | apply shape_map | assumption
               | apply shape_roll_m1_axis0 | apply shape_roll_p1_axis0
               | apply shape_roll_m1_axis1 | apply shape_roll_p1_axis1 ].
Qed.

Lemma get2_one_energy_vec arr r c i j :
  shape arr r c -> (i < r)%nat -> (j < c)%nat ->
  get2 (one_energy_vec arr) i j
  = pair_energy (get2 arr i j) (get2 arr ((i + 1) mod r) j)
    + pair_energy (get2 arr i j) (get2 arr ((i + r - 1) mod r) j)
    + pair_energy (get2 arr i j) (get2 arr i ((j + 1) mod c))
    + pair_energy (get2 arr i j) (get2 arr i ((j + c - 1) mod c)).
Proof.
  intros S Hi Hj. unfold one_energy_vec, pair_energy.
  assert (S1 := shape_roll_m1_axis0 _ _ _ S).
  assert (S2 := shape_roll_p1_axis0 _ _ _ S).
  assert (S3 := shape_roll_m1_axis1 _ _ _ S).
  assert (S4 := shape_roll_p1_axis1 _ _ _ S).
  assert (Z1 := shape_zip2 Rminus _ _ _ _ S S1).
  assert (Z2 := shape_zip2 Rminus _ _ _ _ S S2).
  assert (Z3 := shape_zip2 Rminus _ _ _ _ S S3).
  assert (Z4 := shape_zip2 Rminus _ _ _ _ S S4).
  assert (M1 := shape_map en_term _ _ _ Z1).
  assert (M2 := shape_map en_term _ _ _ Z2).
  assert (M3 := shape_map en_term _ _ _ Z3).
  assert (M4 := shape_map en_term _ _ _ Z4).
  assert (P1 := shape_zip2 Rplus _ _ _ _ M1 M2).
  assert (P2 := shape_zip2 Rplus _ _ _ _ P1 M3).
  rewrite (get2_zip2 _ _ _ r c), (get2_zip2 _ _ _ r c),
    (get2_zip2 _ _ _ r c) by assumption.
  rewrite !(get2_map _ _ r c) by assumption.
  rewrite !(get2_zip2 _ _ _ r c) by assumption.
  rewrite (get2_roll_m1_axis0 _ r c), (get2_roll_p1_axis0 _ r c),
    (get2_roll_m1_axis1 _ r c), (get2_roll_p1_axis1 _ r c) by assumption.
  reflexivity.
Qed.

Lemma sum_over_S n f :
  sum_over (S n) f = f 0%nat + sum_over n (fun i => f (S i)).
Proof.
  unfold sum_over. simpl. f_equal.
  rewrite <- seq_shift, map_map. reflexivity.
Qed.

Lemma sum_over_ext n f g :
  (forall i, (i < n)%nat -> f i = g i) -> sum_over n f = sum_over n g.
Proof.
  revert f g. induction n as [| n IH]; intros f g H.
  - reflexivity.
  - rewrite !sum_over_S. f_equal.
    + apply H. lia.
    + apply IH. intros i Hi. apply H. lia.
Qed.

Lemma sum1_nth (l : array1) :
  sum1 l = sum_over (length l) (fun i => nth i l 0).
Proof.
  induction l as [| x l IH].
  - reflexivity.
  - simpl length. rewrite sum_over_S. simpl. now rewrite IH.
Qed.

Lemma sum1_app (a b : array1) : sum1 (a ++ b) = sum1 a + sum1 b.
Proof.
  induction a as [| x a IH]; simpl.
  - lra.
  - rewrite IH. lra.
Qed.

Lemma sum2_rows (a : array2) : sum2 a = sum1 (map sum1 a).
Proof.
  unfold sum2. induction a as [| row a IH]; simpl.
  - reflexivity.
  - now rewrite sum1_app, IH.
Qed.

Lemma sum2_get2 (a : array2) r c :
  shape a r c ->
  sum2 a = sum_over r (fun i => sum_over c (fun j => get2 a i j)).
Proof.
  intros Sa. rewrite sum2_rows, sum1_nth, length_map.
  assert (Hr : length a = r) by apply Sa. subst r.
  apply sum_over_ext. intros i Hi.
  change 0 with (sum1 []) at 1. rewrite map_nth, sum1_nth.
  rewrite (shape_row a (length a) c) by assumption.
  reflexivity.
Qed.

(** C5: in a block of [r] rows and [c] columns, whatever real angles it
    holds, [one_energy_vec] gives the cell [(i, j)] the sum of the four
    pair energies [0.5*(1 - 3 cos^2(t1 - t2))] with the cells below and
    above it and to its right and left, the indices wrapping around the
    block; the field has the shape of the block; and [all_energy] is the
    sum of the field over all cells. *)
Theorem energy_of_cells (arr : array2) (r c : nat) :
  shape arr r c ->
  (forall t1 t2,
     pair_energy t1 t2 = 0.5 * (1 - 3 * (cos (t1 - t2)) ^ 2)) /\
  shape (one_energy_vec arr) r c /\
  (forall i j, (i < r)%nat -> (j < c)%nat ->
     get2 (one_energy_vec arr) i j
     = pair_energy (get2 arr i j) (get2 arr ((i + 1) mod r) j)
       + pair_energy (get2 arr i j) (get2 arr ((i + r - 1) mod r) j)
       + pair_energy (get2 arr i j) (get2 arr i ((j + 1) mod c))
       + pair_energy (get2 arr i j) (get2 arr i ((j + c - 1) mod c))) /\
  all_energy arr
  = sum_over r (fun i =>
      sum_over c (fun j => get2 (one_energy_vec arr) i j)).
Proof.
  intros S. split.
  { intros t1 t2. unfold pair_energy, en_term. lra. }
  split; [now apply shape_one_energy_vec |]. split.
  - intros i j Hi Hj. now apply get2_one_energy_vec.
  - unfold all_energy. apply sum2_get2. now apply shape_one_energy_vec.
Qed.

Lemma energy_of_cells_witness :
  let arr := [[0; PI / 2]; [PI; 1]] in
  get2 (one_energy_vec arr) 0 1
  = pair_energy (PI / 2) 1 + pair_energy (PI / 2) 1
    + pair_energy (PI / 2) 0 + pair_energy (PI / 2) 0.
Proof.
  intros arr.
  assert (S : shape arr 2 2).
  { split; [reflexivity | repeat constructor]. }
  destruct (energy_of_cells arr 2 2 S) as (_ & _ & H & _).
  exact (H 0%nat 1%nat ltac:(lia) ltac:(lia)).
Defined.

(** ** Boolean masks, cell by cell *)

Section MaskLemmas.

Context {A B C : Type}.

Lemma map2_app (f : A -> B -> C) l1 l1' l2 l2' :
  length l1 = length l2 ->
  map2 f (l1 ++ l1') (l2 ++ l2') = map2 f l1 l2 ++ map2 f l1' l2'.
Proof.
  revert l2. induction l1 as [| x l1 IH]; intros [| y l2] H; simpl in *;
    try discriminate; auto.
  f_equal. apply IH. lia.
Qed.

Lemma length_select1 (m : list bool) (a : list A) :
  length m = length a ->
  length (select1 m a) = count_occ bool_dec m true.
Proof.
  revert a. induction m as [| b m IH]; intros [| x a] H; simpl in *;
    try discriminate; auto.
  destruct b; simpl; rewrite IH by lia; reflexivity.
Qed.

Lemma select1_map2 (f : A -> B -> C) m a b :
  length a = length b ->
  select1 m (map2 f a b) = map2 f (select1 m a) (select1 m b).
Proof.
  revert a b. induction m as [| mi m IH]; intros [| x a] [| y b] H;
    simpl in *; try discriminate; auto.
  destruct mi; simpl; rewrite IH by lia; reflexivity.
Qed.

Lemma select1_map (f : A -> B) m a :
  select1 m (map f a) = map f (select1 m a).
Proof.
  revert a. induction m as [| mi m IH]; intros [| x a]; simpl; auto.
  destruct mi; simpl; now rewrite IH.
Qed.

End MaskLemmas.

Lemma assign1_select1 {A : Type} (m : list bool) (a b rest : list A) :
  length m = length a -> length a = length b ->
  assign1 m a (select1 m b ++ rest) = (where1 m a b, rest).
Proof.
  revert a b. induction m as [| mi m IH]; intros [| x a] [| y b] H1 H2;
    simpl in *; try discriminate; auto.
  destruct mi; simpl; rewrite IH by lia; reflexivity.
Qed.

Lemma select2_length {A B : Type} (m : list (list bool))
  (a : list (list A)) (b : list (list B)) r c :
  shape m r c -> shape a r c -> shape b r c ->
  length (select2 m a) = length (select2 m b).
Proof.
  intros [Hm Fm] [Ha Fa] [Hb Fb]. subst r. revert a b Ha Hb Fa Fb.
  unfold select2.
  induction Fm as [| mr m Hmr _ IH]; intros [| ar a] [| br b] Ha Hb Fa Fb;
    simpl in *; try discriminate; auto.
  inversion Fa; inversion Fb; subst.
  rewrite !length_app, !length_select1 by congruence.
  f_equal. apply IH; auto.
Qed.

Lemma select2_zip2 {A B C : Type} (f : A -> B -> C) m a b r c :
  shape m r c -> shape a r c -> shape b r c ->
  select2 m (zip2 f a b) = map2 f (select2 m a) (select2 m b).
Proof.
  intros [Hm Fm] [Ha Fa] [Hb Fb]. subst r. revert a b Ha Hb Fa Fb.
  unfold select2, zip2.
  induction Fm as [| mr m Hmr _ IH]; intros [| ar a] [| br b] Ha Hb Fa Fb;
    simpl in *; try discriminate; auto.
  inversion Fa; inversion Fb; subst.
  rewrite map2_app by (rewrite !length_select1; congruence).
  rewrite select1_map2 by congruence.
  f_equal. apply IH; auto.
Qed.

Lemma select2_map {A B : Type} (f : A -> B) m a :
  select2 m (map (map f) a) = map f (select2 m a).
Proof.
  unfold select2. revert a.
  induction m as [| mr m IH]; intros [| ar a]; simpl; auto.
  now rewrite map_app, select1_map, IH.
Qed.

Lemma assign2_select2 {A : Type} m (a b : list (list A)) r c :
  shape m r c -> shape a r c -> shape b r c ->
  assign2 m a (select2 m b) = where2 m a b.
Proof.
  intros [Hm Fm] [Ha Fa] [Hb Fb]. subst r. revert a b Ha Hb Fa Fb.
  unfold select2, where2, zip2.
  induction Fm as [| mr m Hmr _ IH]; intros [| ar a] [| br b] Ha Hb Fa Fb;
    simpl in *; try discriminate; auto.
  inversion Fa; inversion Fb; subst.
  rewrite assign1_select1 by congruence.
  f_equal. apply IH; auto.
Qed.

Lemma shape_where2 {A : Type} m (a b : list (list A)) r c :
  shape m r c -> shape a r c -> shape b r c -> shape (where2 m a b) r c.
Proof.
  intros. unfold where2. apply shape_zip2; auto. now apply shape_zip2.
Qed.

Lemma nth_where2 {A : Type} m (a b : list (list A)) r c i j d :
  shape m r c -> shape a r c -> shape b r c ->
  (i < r)%nat -> (j < c)%nat ->
  nth j (nth i (where2 m a b) []) d
  = if getb m i j then nth j (nth i b []) d else nth j (nth i a []) d.
Proof.
  intros Sm Sa Sb Hi Hj. unfold where2, getb.
  rewrite (nth_zip2 _ _ _ r c i j false (d, d)); auto.
  - rewrite (nth_zip2 _ _ _ r c i j d d); auto.
  - now apply shape_zip2.
Qed.

(** ** One checkerboard phase, cell by cell *)

Section Phase.

Variables (arr aran u : array2) (Ts : R) (mask : list (list bool)).
Variables (r c : nat).
Hypothesis S_arr : shape arr r c.
Hypothesis S_aran : shape aran r c.
Hypothesis S_u : shape u r c.
Hypothesis S_mask : shape mask r c.

Lemma proposal_where :
  proposal mask arr aran = where2 mask arr (zip2 Rplus arr aran).
Proof.
  unfold proposal, add_masked.
  rewrite <- (select2_zip2 Rplus mask arr aran r c) by assumption.
  apply (assign2_select2 mask arr _ r c); auto.
  now apply shape_zip2.
Qed.

Lemma shape_proposal : shape (proposal mask arr aran) r c.
Proof.
  rewrite proposal_where. apply shape_where2; auto.
  now apply shape_zip2.
Qed.

Let trial := proposal mask arr aran.
Let en0 := one_energy_vec arr.
Let en1 := one_energy_vec trial.
Let acc := accept_field Ts en0 en1 u.

Lemma shape_accept_field : shape acc r c.
Proof.
  pose proof shape_proposal as St.
  pose proof (shape_one_energy_vec _ _ _ S_arr) as S0.
  pose proof (shape_one_energy_vec _ _ _ St) as S1.
  unfold acc, accept_field.
  apply shape_zip2; [apply shape_zip2; assumption |].
  apply shape_zip2; [apply shape_zip2; assumption | assumption].
Qed.


(** The whole phase as cell-wise selections: a masked cell keeps its
    proposal when the test accepts it and has the proposal subtracted
    again otherwise. *)
Lemma mc_vec_diagonals_where :
  mc_vec_diagonals arr aran u Ts mask
  = (where2 mask trial
       (where2 (map (map negb) acc) trial (zip2 Rminus trial aran)),
     Z.of_nat (count_occ bool_dec (select2 mask acc) true)).
Proof.
  pose proof shape_proposal as St. fold trial in St.
  pose proof (shape_one_energy_vec _ _ _ S_arr) as S0.
  pose proof (shape_one_energy_vec _ _ _ St) as S1.
  fold en0 in S0. fold en1 in S1.
  pose proof shape_accept_field as Sacc.
  assert (Sneg : shape (map (map negb) acc) r c) by now apply shape_map.
  assert (Sd : shape (zip2 Rminus trial aran) r c) by now apply shape_zip2.
  assert (Hacc :
    map2 orb (map2 Rleb (select2 mask en1) (select2 mask en0))
      (map2 x_geb
         (map2 (boltz_factor Ts) (select2 mask en1) (select2 mask en0))
         (select2 mask u))
    = select2 mask acc).
  { assert (Sb : shape (zip2 (boltz_factor Ts) en1 en0) r c)
      by (apply shape_zip2; assumption).
    assert (Sg : shape (zip2 x_geb (zip2 (boltz_factor Ts) en1 en0) u) r c)
      by (apply shape_zip2; assumption).
    assert (Sl : shape (zip2 Rleb en1 en0) r c)
      by (apply shape_zip2; assumption).
    unfold acc, accept_field.
    rewrite (select2_zip2 orb mask _ _ r c) by assumption.
    rewrite (select2_zip2 Rleb mask _ _ r c) by assumption.
    rewrite (select2_zip2 x_geb mask _ _ r c) by assumption.
    rewrite (select2_zip2 _ mask en1 en0 r c) by assumption.
    reflexivity. }
  unfold mc_vec_diagonals.
  change (add_masked Rplus mask arr aran) with trial.
  fold en0. fold en1. rewrite Hacc. unfold subtract_rejected. f_equal.
  rewrite <- select1_map2
    by (apply (select2_length mask trial aran r c); auto).
  rewrite <- (select2_zip2 Rminus mask trial aran r c) by auto.
  rewrite <- (select2_map negb mask acc).
  rewrite <- (app_nil_r (select1 _ _)).
  rewrite assign1_select1.
  - simpl fst. unfold where1.
    rewrite <- (select2_zip2 pair mask _ _ r c) by auto.
    rewrite <- (select2_zip2 _ mask _ _ r c)
      by (auto; now apply shape_zip2).
    fold (where2 (map (map negb) acc) trial (zip2 Rminus trial aran)).
    apply (assign2_select2 mask trial _ r c); auto.
    now apply shape_where2.
  - apply (select2_length mask _ trial r c); auto.
  - apply (select2_length mask trial _ r c); auto.
Qed.

End Phase.








(** ** A phase, cell by cell *)

Section PhaseCells.

Variables (arr aran u : array2) (Ts : R) (mask : list (list bool)).
Variables (r c : nat).
Hypothesis S_arr : shape arr r c.
Hypothesis S_aran : shape aran r c.
Hypothesis S_u : shape u r c.
Hypothesis S_mask : shape mask r c.

Lemma get2_proposal i j :
  (i < r)%nat -> (j < c)%nat ->
  get2 (proposal mask arr aran) i j
  = if getb mask i j then get2 arr i j + get2 aran i j else get2 arr i j.
Proof.
  intros Hi Hj.
  rewrite (proposal_where arr aran mask r c) by assumption.
  unfold get2.
  rewrite (nth_where2 _ _ _ r c) by (auto; now apply shape_zip2).
  destruct (getb mask i j); [| reflexivity].
  now rewrite (nth_zip2 Rplus _ _ r c i j 0 0).
Qed.



(** When no neighbour of a cell of the mask is in the mask, the energy of
    the cell after the proposals is the energy of moving it alone. *)
Lemma independent_phase_energy i j :
  (i < r)%nat -> (j < c)%nat ->
  getb mask i j = true ->
  getb mask ((i + 1) mod r) j = false ->
  getb mask ((i + r - 1) mod r) j = false ->
  getb mask i ((j + 1) mod c) = false ->
  getb mask i ((j + c - 1) mod c) = false ->
  get2 (one_energy_vec (proposal mask arr aran)) i j
  = energy_if_moved arr aran r c i j.
Proof.
  intros Hi Hj M0 M1 M2 M3 M4.
  pose proof (shape_proposal arr aran mask r c S_arr S_aran S_mask) as St.
  assert (Br : forall x, (x mod r < r)%nat)
    by (intros; apply Nat.mod_upper_bound; lia).
  assert (Bc : forall x, (x mod c < c)%nat)
    by (intros; apply Nat.mod_upper_bound; lia).
  rewrite (get2_one_energy_vec _ r c) by assumption.
  rewrite !get2_proposal by (try assumption; try apply Br; try apply Bc).
  rewrite M0, M1, M2, M3, M4. reflexivity.
Qed.

End PhaseCells.

(** An example of a rejected proposal. *)







(** ** The sweep keeps the shape of the block *)

Lemma shape_diag_mask_1 rows nmax :
  shape (diag_mask_1 rows nmax) (Z.to_nat rows) (Z.to_nat nmax).
Proof.
  unfold diag_mask_1. split.
  - now rewrite length_map, length_seq.
  - rewrite Forall_map, Forall_forall. intros i _.
    now rewrite length_map, length_seq.
Qed.

Lemma shape_diag_mask_2 rows nmax :
  shape (diag_mask_2 rows nmax) (Z.to_nat rows) (Z.to_nat nmax).
Proof. apply shape_map, shape_diag_mask_1. Qed.

Lemma shape_mc_vec_diagonals arr aran u Ts mask r c :
  shape arr r c -> shape aran r c -> shape u r c -> shape mask r c ->
  shape (fst (mc_vec_diagonals arr aran u Ts mask)) r c.
Proof.
  intros Sa Sn Su Sm.
  rewrite (mc_vec_diagonals_where arr aran u Ts mask r c) by assumption.
  pose proof (shape_proposal arr aran mask r c Sa Sn Sm) as St.
  pose proof (shape_accept_field arr aran u Ts mask r c Sa Sn Su Sm) as Sacc.
  simpl. apply shape_where2; auto. apply shape_where2; auto.
  - now apply shape_map.
  - now apply shape_zip2.
Qed.

Lemma MC_step_runs arr rows nmax Ts d :
  0 <= 0.1 + Ts ->
  exists arr' ratio, MC_step arr rows nmax Ts d = Some (arr', ratio).
Proof.
  intros Hs. unfold MC_step.
  destruct (Rlt_dec (0.1 + Ts) 0) as [L | _]; [lra |].
  destruct (mc_vec_diagonals arr _ _ Ts (diag_mask_1 rows nmax)) as [a1 n1].
  destruct (mc_vec_diagonals a1 _ _ Ts (diag_mask_2 rows nmax)) as [a2 n2].
  eauto.
Qed.

Lemma MC_step_raises arr rows nmax Ts d :
  0.1 + Ts < 0 -> MC_step arr rows nmax Ts d = None.
Proof.
  intros Hs. unfold MC_step.
  destruct (Rlt_dec (0.1 + Ts) 0) as [_ | N]; [reflexivity | contradiction].
Qed.

Lemma MC_step_shape arr rows nmax Ts d arr' ratio :
  shape arr (Z.to_nat rows) (Z.to_nat nmax) ->
  shape (aran d) (Z.to_nat rows) (Z.to_nat nmax) ->
  shape (boltz_random d) (Z.to_nat rows) (Z.to_nat nmax) ->
  MC_step arr rows nmax Ts d = Some (arr', ratio) ->
  shape arr' (Z.to_nat rows) (Z.to_nat nmax).
Proof.
  intros Sa Sn Su. unfold MC_step.
  destruct (Rlt_dec (0.1 + Ts) 0) as [L | _]; [discriminate |].
  pose proof (shape_mc_vec_diagonals arr (aran d) (boltz_random d) Ts
                (diag_mask_1 rows nmax) _ _ Sa Sn Su
                (shape_diag_mask_1 rows nmax)) as S1.
  destruct (mc_vec_diagonals arr _ _ Ts (diag_mask_1 rows nmax)) as [a1 n1].
  simpl in S1.
  pose proof (shape_mc_vec_diagonals a1 (aran d) (boltz_random d) Ts
                (diag_mask_2 rows nmax) _ _ S1 Sn Su
                (shape_diag_mask_2 rows nmax)) as S2.
  destruct (mc_vec_diagonals a1 _ _ Ts (diag_mask_2 rows nmax)) as [a2 n2].
  simpl in S2. intros [= <- _]. exact S2.
Qed.

Lemma length_concat_shape {A : Type} (a : list (list A)) r c :
  shape a r c -> length (concat a) = (r * c)%nat.
Proof.
  intros [Hr Hc]. subst r. induction Hc as [| row a Hrow _ IH]; simpl.
  - reflexivity.
  - rewrite length_app, IH, Hrow. reflexivity.
Qed.

(** With two dimensions that are not negative, [get_order] returns when
    the array has [rows*nmax] cells and this number is not 0, and only
    then. *)
Lemma get_order_defined (arr : array2) rows nmax :
  (0 <= rows)%Z -> (0 <= nmax)%Z ->
  Z.of_nat (length (concat arr)) = (rows * nmax)%Z ->
  (rows * nmax <> 0)%Z ->
  get_order arr rows nmax = Some (eig_max (Qab arr rows nmax)).
Proof.
  intros Hr Hn Hc Hz. unfold get_order, reshape_dims.
  destruct (Z.leb_spec 0 rows) as [_ | L]; [| lia].
  destruct (Z.leb_spec 0 nmax) as [_ | L]; [| lia].
  rewrite Hc, Z.eqb_refl. cbn [andb].
  destruct (Z.eqb_spec (rows * nmax) 0) as [E | _];
    [contradiction | reflexivity].
Qed.

Lemma get_order_raises (arr : array2) rows nmax :
  (0 <= rows)%Z -> (0 <= nmax)%Z ->
  Z.of_nat (length (concat arr)) <> (rows * nmax)%Z \/ (rows * nmax = 0)%Z ->
  get_order arr rows nmax = None.
Proof.
  intros Hr Hn H. unfold get_order, reshape_dims.
  destruct (Z.leb_spec 0 rows) as [_ | L]; [| lia].
  destruct (Z.leb_spec 0 nmax) as [_ | L]; [| lia].
  cbn [andb].
  destruct (Z.eqb_spec (rows * nmax) (Z.of_nat (length (concat arr))))
    as [E | N]; [| reflexivity].
  destruct (Z.eqb_spec (rows * nmax) 0) as [E0 | N0]; [reflexivity |].
  destruct H; [congruence | contradiction].
Qed.

Lemma cells_of_shape (arr : array2) rows nmax :
  (0 < rows)%Z -> (0 < nmax)%Z ->
  shape arr (Z.to_nat rows) (Z.to_nat nmax) ->
  Z.of_nat (length (concat arr)) = (rows * nmax)%Z /\ (rows * nmax <> 0)%Z.
Proof.
  intros Hr Hn Sa. rewrite (length_concat_shape arr _ _ Sa). split; nia.
Qed.

Lemma get_order_runs arr rows nmax :
  (0 < rows)%Z -> (0 < nmax)%Z ->
  shape arr (Z.to_nat rows) (Z.to_nat nmax) ->
  get_order arr rows nmax = Some (eig_max (Qab arr rows nmax)).
Proof.
  intros Hr Hn Sa.
  destruct (cells_of_shape arr rows nmax Hr Hn Sa).
  apply get_order_defined; auto; lia.
Qed.

(** ** Python indices on a local lattice *)

Lemma index_back (len k : nat) :
  (1 <= k <= len)%nat -> Py.index len (- Z.of_nat k) = Some (len - k)%nat.
Proof.
  intros Hk. unfold Py.index.
  destruct (Z.leb_spec 0 (- Z.of_nat k)) as [L | _]; [lia |]. simpl.
  destruct (Z.leb_spec (- Z.of_nat len) (- Z.of_nat k)) as [_ | L]; [| lia].
  destruct (Z.ltb_spec (- Z.of_nat k) 0) as [_ | L]; [| lia].
  simpl. f_equal. lia.
Qed.

Lemma index_front (len k : nat) :
  (k < len)%nat -> Py.index len (Z.of_nat k) = Some k.
Proof.
  intros Hk. unfold Py.index.
  destruct (Z.leb_spec 0 (Z.of_nat k)) as [_ | L]; [| lia].
  destruct (Z.ltb_spec (Z.of_nat k) (Z.of_nat len)) as [_ | L]; [| lia].
  simpl. f_equal. lia.
Qed.

Section Frame.

(** A local lattice: a ghost row, the interior rows, a ghost row. *)
Variables (g1 g2 : list R) (rows_in : list (list R)).

Lemma length_frame : length (g1 :: rows_in ++ [g2]) = S (S (length rows_in)).
Proof. simpl. rewrite length_app. simpl. lia. Qed.

Lemma interior_frame : interior (g1 :: rows_in ++ [g2]) = rows_in.
Proof. unfold interior. simpl tl. apply removelast_last. Qed.

Lemma write_interior_frame (new : list (list R)) :
  write_interior (g1 :: rows_in ++ [g2]) new = g1 :: new ++ [g2].
Proof.
  unfold write_interior. cbn [tl firstn]. rewrite length_app. simpl length.
  replace (length rows_in + 1 - 1)%nat with (length rows_in + 0)%nat by lia.
  rewrite skipn_app, Nat.add_0_r, skipn_all, Nat.sub_diag. reflexivity.
Qed.

Lemma getitem_frame_m2 :
  exists row, Py.getitem (g1 :: rows_in ++ [g2]) (-2) = Some row.
Proof.
  unfold Py.getitem. rewrite length_frame.
  rewrite (index_back _ 2) by lia.
  destruct (nth_error (g1 :: rows_in ++ [g2]) (S (S (length rows_in)) - 2))
    as [row |] eqn:E; [eauto |].
  apply nth_error_None in E. rewrite length_frame in E. lia.
Qed.

Lemma getitem_frame_1 :
  exists row, Py.getitem (g1 :: rows_in ++ [g2]) 1 = Some row.
Proof.
  unfold Py.getitem. rewrite length_frame.
  rewrite (index_front _ 1) by lia.
  destruct (nth_error (g1 :: rows_in ++ [g2]) 1) as [row |] eqn:E;
    [eauto |].
  apply nth_error_None in E. rewrite length_frame in E. lia.
Qed.

Lemma setitem_frame_m1 (row : list R) :
  Py.setitem (g1 :: rows_in ++ [g2]) (-1) row
  = Some (g1 :: rows_in ++ [row]).
Proof.
  unfold Py.setitem. rewrite length_frame.
  rewrite (index_back _ 1) by lia. f_equal.
  unfold Py.set_nth.
  replace (S (S (length rows_in)) - 1)%nat with (S (length rows_in)) by lia.
  rewrite (skipn_all2 (n := S (S (length rows_in))))
    by (rewrite length_frame; lia).
  cbn [firstn].
  replace (length rows_in) with (length rows_in + 0)%nat at 1 by lia.
  rewrite firstn_app_2. simpl firstn. rewrite app_nil_r.
  reflexivity.
Qed.

Lemma setitem_frame_0 (row : list R) :
  Py.setitem (g1 :: rows_in ++ [g2]) 0 row
  = Some (row :: rows_in ++ [g2]).
Proof.
  unfold Py.setitem. rewrite length_frame.
  rewrite (index_front _ 0) by lia. reflexivity.
Qed.

End Frame.

(** ** One pass of the worker's loop *)

Section LoopBody.

Variables (rows nmax : Z) (temp : R) (above below : Z).

(** The exchange replaces the two ghost rows and nothing else of the
    lattice. *)
Lemma exchange_frame it h st (g1 g2 : list R) (rows_in : list (list R)) :
  local_lattice st = g1 :: rows_in ++ [g2] ->
  exists r1 r3,
    exchange above below it h st
    = Some (tt,
        {| local_lattice := from_above h :: rows_in ++ [from_below h];
           worker_energy := worker_energy st;
           worker_ratio := worker_ratio st;
           worker_order := worker_order st;
           outbox := outbox st
             ++ [{| m_dest := below; m_tag := ABOVE; m_row := r1 |};
                 {| m_dest := above; m_tag := BELOW; m_row := r3 |}];
           trace := trace st ++ [EvExchange it] |}).
Proof.
  intros Hll.
  destruct (getitem_frame_m2 g1 g2 rows_in) as [r1 H1].
  destruct (getitem_frame_1 g1 g2 rows_in) as [r3 H3].
  exists r1, r3.
  unfold exchange, bind, log, get_lattice, lift, send, put_lattice.
  cbn [local_lattice worker_energy worker_ratio worker_order outbox trace].
  rewrite Hll, H1.
  cbn [local_lattice worker_energy worker_ratio worker_order outbox trace].
  rewrite setitem_frame_m1, H3.
  cbn [local_lattice worker_energy worker_ratio worker_order outbox trace].
  rewrite setitem_frame_0.
  rewrite <- app_assoc. reflexivity.
Qed.

Lemma do_MC_step_frame it d st (g1 g2 : list R) (rows_in : list (list R)) :
  local_lattice st = g1 :: rows_in ++ [g2] ->
  do_MC_step rows nmax temp it d st
  = match MC_step rows_in rows nmax temp d with
    | Some (swept, ratio) =>
        Some (ratio,
          {| local_lattice := g1 :: swept ++ [g2];
             worker_energy := worker_energy st;
             worker_ratio := worker_ratio st;
             worker_order := worker_order st;
             outbox := outbox st;
             trace := trace st ++ [EvSweep it] |})
    | None => None
    end.
Proof.
  intros Hll.
  unfold do_MC_step, bind, log, get_lattice, lift, put_lattice, ret.
  cbn [local_lattice worker_energy worker_ratio worker_order outbox trace].
  rewrite Hll, interior_frame.
  destruct (MC_step rows_in rows nmax temp d) as [[swept ratio] |];
    [| reflexivity].
  cbn [fst snd local_lattice worker_energy worker_ratio worker_order
       outbox trace].
  now rewrite write_interior_frame.
Qed.

Lemma do_all_energy_frame it st (g1 g2 : list R) (rows_in : list (list R)) :
  local_lattice st = g1 :: rows_in ++ [g2] ->
  do_all_energy it st
  = Some (all_energy rows_in,
      {| local_lattice := local_lattice st;
         worker_energy := worker_energy st;
         worker_ratio := worker_ratio st;
         worker_order := worker_order st;
         outbox := outbox st;
         trace := trace st ++ [EvEnergy it] |}).
Proof.
  intros Hll. unfold do_all_energy, bind, log, get_lattice, ret.
  cbn [local_lattice worker_energy worker_ratio worker_order outbox trace].
  now rewrite Hll, interior_frame.
Qed.

Lemma do_get_order_frame it st (g1 g2 : list R) (rows_in : list (list R)) :
  local_lattice st = g1 :: rows_in ++ [g2] ->
  do_get_order rows nmax it st
  = match get_order rows_in rows nmax with
    | Some o =>
        Some (o,
          {| local_lattice := local_lattice st;
             worker_energy := worker_energy st;
             worker_ratio := worker_ratio st;
             worker_order := worker_order st;
             outbox := outbox st;
             trace := trace st ++ [EvOrder it] |})
    | None => None
    end.
Proof.
  intros Hll. unfold do_get_order, bind, log, get_lattice, lift.
  cbn [local_lattice worker_energy worker_ratio worker_order outbox trace].
  now rewrite Hll, interior_frame.
Qed.

(** The pass fails exactly when the sweep or the order parameter raises;
    otherwise it stores the three statistics of the swept interior,
    replaces the ghost rows and extends the trace by the events of the
    step. *)
Lemma loop_body_frame it d h st (g1 g2 : list R) (rows_in : list (list R)) :
  local_lattice st = g1 :: rows_in ++ [g2] ->
  (loop_body rows nmax temp above below it d h st = None /\
   (MC_step rows_in rows nmax temp d = None \/
    exists swept ratio,
      MC_step rows_in rows nmax temp d = Some (swept, ratio) /\
      get_order swept rows nmax = None))
  \/
  exists swept ratio o r1 r3,
    MC_step rows_in rows nmax temp d = Some (swept, ratio) /\
    get_order swept rows nmax = Some o /\
    loop_body rows nmax temp above below it d h st
    = Some (tt,
        {| local_lattice := from_above h :: swept ++ [from_below h];
           worker_energy :=
             Py.set_nth (worker_energy st) it (all_energy swept);
           worker_ratio := Py.set_nth (worker_ratio st) it ratio;
           worker_order := Py.set_nth (worker_order st) it o;
           outbox := outbox st
             ++ [{| m_dest := below; m_tag := ABOVE; m_row := r1 |};
                 {| m_dest := above; m_tag := BELOW; m_row := r3 |}];
           trace := trace st ++ events_of_step it |}).
Proof.
  intros Hll.
  remember (loop_body rows nmax temp above below it d h st) as res eqn:E.
  unfold loop_body in E.
  unfold bind at 1 in E.
  rewrite (do_MC_step_frame it d st g1 g2 rows_in Hll) in E.
  destruct (MC_step rows_in rows nmax temp d) as [[swept ratio] |] eqn:EM;
    [| left; split; [exact E | now left]].
  unfold bind at 1 in E. unfold set_ratio at 1 in E.
  cbn [local_lattice worker_energy worker_ratio worker_order outbox trace]
    in E.
  unfold bind at 1 in E.
  match type of E with
  | context [do_all_energy it ?s] =>
      rewrite (do_all_energy_frame it s g1 g2 swept eq_refl) in E
  end.
  cbn [local_lattice worker_energy worker_ratio worker_order outbox trace]
    in E.
  unfold bind at 1 in E. unfold set_energy at 1 in E.
  cbn [local_lattice worker_energy worker_ratio worker_order outbox trace]
    in E.
  unfold bind at 1 in E.
  match type of E with
  | context [do_get_order rows nmax it ?s] =>
      rewrite (do_get_order_frame it s g1 g2 swept eq_refl) in E
  end.
  destruct (get_order swept rows nmax) as [o |] eqn:EO;
    [| left; split; [exact E | right; eauto]].
  right.
  cbn [local_lattice worker_energy worker_ratio worker_order outbox trace]
    in E.
  unfold bind at 1 in E. unfold set_order at 1 in E.
  cbn [local_lattice worker_energy worker_ratio worker_order outbox trace]
    in E.
  match type of E with
  | context [exchange above below it h ?s] =>
      destruct (exchange_frame it h s g1 g2 swept eq_refl)
        as [r1 [r3 Hex]]; rewrite Hex in E
  end.
  exists swept, ratio, o, r1, r3.
  split; [reflexivity |]. split; [exact EO |].
  rewrite E.
  cbn [local_lattice worker_energy worker_ratio worker_order outbox trace].
  unfold events_of_step. rewrite <- !app_assoc. reflexivity.
Qed.

End LoopBody.

(** ** The ghost rows are never read *)

Section GhostRows.

Variables (rows nmax : Z) (temp : R) (above below : Z).
Variable ds : nat -> draws.

Lemma loop_cons it its hs st :
  loop rows nmax temp above below (it :: its) ds hs st
  = match loop_body rows nmax temp above below it (ds it) (hs it) st with
    | Some (_, st') => loop rows nmax temp above below its ds hs st'
    | None => None
    end.
Proof. reflexivity. Qed.

Lemma loop_same_but_ghosts its hs1 hs2 st1 st2 :
  same_but_ghosts st1 st2 ->
  match loop rows nmax temp above below its ds hs1 st1,
        loop rows nmax temp above below its ds hs2 st2 with
  | Some (_, s1), Some (_, s2) => same_but_ghosts s1 s2
  | None, None => True
  | _, _ => False
  end.
Proof.
  revert st1 st2. induction its as [| it its IH]; intros st1 st2 Hsame.
  - simpl. exact Hsame.
  - destruct Hsame as ((g1 & g2 & g1' & g2' & rows_in & L1 & L2)
                       & He & Hr & Ho & Ht).
    rewrite !loop_cons.
    destruct (loop_body_frame rows nmax temp above below it (ds it)
                (hs1 it) st1 g1 g2 rows_in L1)
      as [[N1 C1] | (sw1 & ra1 & o1 & r1 & r3 & M1 & O1 & B1)];
    destruct (loop_body_frame rows nmax temp above below it (ds it)
                (hs2 it) st2 g1' g2' rows_in L2)
      as [[N2 C2] | (sw2 & ra2 & o2 & q1 & q3 & M2 & O2 & B2)].
    + rewrite N1, N2. exact I.
    + exfalso. destruct C1 as [C1 | (sw & ra & C1 & C1')]; congruence.
    + exfalso. destruct C2 as [C2 | (sw & ra & C2 & C2')]; congruence.
    + rewrite B1, B2.
      assert (sw2 = sw1 /\ ra2 = ra1) as [-> ->]
        by (split; congruence).
      assert (o2 = o1) as -> by congruence.
      apply IH. split.
      * exists (from_above (hs1 it)), (from_below (hs1 it)),
          (from_above (hs2 it)), (from_below (hs2 it)), sw1.
        split; reflexivity.
      * cbn [worker_energy worker_ratio worker_order trace].
        rewrite He, Hr, Ho, Ht. repeat split; reflexivity.
Qed.

End GhostRows.

(** C10: what a worker hands to the coordinator - its interior block and
    its series of acceptance ratio, energy and order parameter - does not
    depend on the ghost rows.  Two runs of the loop of a worker from
    states with the same interior rows and the same series, but with any
    ghost rows at the start and any rows arriving from the neighbours at
    every exchange, end alike: both raise, or both hand over the same
    block and the same three series. *)
Theorem ghost_rows_not_observed
  (rows nmax : Z) (temp : R) (above below offset nsteps : Z)
  (ds : nat -> draws) (hs1 hs2 : nat -> halo)
  (g1 g2 g1' g2' : array1) (block : array2)
  (en ra ord : array1) (out1 out2 : list message) (tr : list event) :
  handed_over offset rows
    (worker_loop rows nmax temp above below nsteps ds hs1
       {| local_lattice := g1 :: block ++ [g2];
          worker_energy := en; worker_ratio := ra; worker_order := ord;
          outbox := out1; trace := tr |})
  = handed_over offset rows
      (worker_loop rows nmax temp above below nsteps ds hs2
         {| local_lattice := g1' :: block ++ [g2'];
            worker_energy := en; worker_ratio := ra; worker_order := ord;
            outbox := out2; trace := tr |}).
Proof.
  unfold worker_loop.
  match goal with
  | |- handed_over _ _ (loop _ _ _ _ _ ?its _ _ ?s1)
       = handed_over _ _ (loop _ _ _ _ _ _ _ _ ?s2) =>
      pose proof (loop_same_but_ghosts rows nmax temp above below ds its
                    hs1 hs2 s1 s2) as H
  end.
  match type of H with
  | ?P -> _ => assert (Hsame : P)
  end.
  { split.
    - exists g1, g2, g1', g2', block. split; reflexivity.
    - repeat split; reflexivity. }
  specialize (H Hsame).
  destruct (loop rows nmax temp above below _ ds hs1 _) as [[[] s1] |];
    destruct (loop rows nmax temp above below _ ds hs2 _) as [[[] s2] |];
    try contradiction; [| reflexivity].
  destruct H as ((h1 & h2 & h1' & h2' & rows_in & L1 & L2)
                 & He & Hr & Ho & Ht).
  unfold handed_over, worker_finish. simpl. f_equal.
  rewrite L1, L2, !interior_frame, He, Hr, Ho. reflexivity.
Qed.

(** ** The loop of a worker runs to its end *)

Lemma worker_init_frame rows nmax nsteps block :
  (0 <= rows)%Z ->
  local_lattice (worker_init rows nmax nsteps block)
  = zeros (Z.to_nat nmax) :: block ++ [zeros (Z.to_nat nmax)].
Proof.
  intros Hr. unfold worker_init, zeros2. cbn [local_lattice].
  replace (Z.to_nat (rows + 2)) with (S (S (Z.to_nat rows))) by lia.
  cbn [repeat]. rewrite repeat_cons.
  apply write_interior_frame.
Qed.

Section LoopRuns.

Variables (rows nmax : Z) (temp : R) (above below : Z).
Variable ds : nat -> draws.
Variable hs : nat -> halo.
Hypothesis scale_ok : 0 <= 0.1 + temp.
Hypothesis rows_pos : (0 < rows)%Z.
Hypothesis nmax_pos : (0 < nmax)%Z.
Hypothesis draws_ok :
  forall it,
    shape (aran (ds it)) (Z.to_nat rows) (Z.to_nat nmax) /\
    shape (boltz_random (ds it)) (Z.to_nat rows) (Z.to_nat nmax).

Lemma loop_runs its st (g1 g2 : list R) (rows_in : list (list R)) :
  local_lattice st = g1 :: rows_in ++ [g2] ->
  shape rows_in (Z.to_nat rows) (Z.to_nat nmax) ->
  exists st',
    loop rows nmax temp above below its ds hs st = Some (tt, st') /\
    trace st' = trace st ++ flat_map events_of_step its.
Proof.
  revert st g1 g2 rows_in.
  induction its as [| it its IH]; intros st g1 g2 rows_in Hll Hshape.
  - exists st. split; [reflexivity |]. simpl. now rewrite app_nil_r.
  - rewrite loop_cons.
    destruct (draws_ok it) as [Sa Su].
    destruct (MC_step_runs rows_in rows nmax temp (ds it) scale_ok)
      as (swept & ratio & HM).
    pose proof (MC_step_shape _ _ _ _ _ _ _ Hshape Sa Su HM) as Hswept.
    pose proof (get_order_runs swept rows nmax rows_pos nmax_pos Hswept)
      as HO.
    destruct (loop_body_frame rows nmax temp above below it (ds it)
                (hs it) st g1 g2 rows_in Hll)
      as [[_ C] | (sw & ra & o & r1 & r3 & M & O & B)].
    + exfalso. destruct C as [C | (sw & ra & C & C')]; [congruence |].
      assert (sw = swept) as -> by congruence. congruence.
    + assert (sw = swept) as -> by congruence.
      rewrite B.
      match goal with
      | |- context [loop _ _ _ _ _ its ds hs ?s] =>
          destruct (IH s (from_above (hs it)) (from_below (hs it)) swept
                      eq_refl Hswept) as (st' & Hloop & Htrace)
      end.
      exists st'. split; [exact Hloop |].
      rewrite Htrace. cbn [trace flat_map].
      now rewrite <- app_assoc.
Qed.

(** From its initial state the worker runs all its steps, and its trace
    is the events of the steps 0, 1, ... in the order of the loop body. *)
Lemma worker_loop_runs nsteps block :
  shape block (Z.to_nat rows) (Z.to_nat nmax) ->
  exists st',
    worker_loop rows nmax temp above below nsteps ds hs
      (worker_init rows nmax nsteps block) = Some (tt, st') /\
    trace st' = flat_map events_of_step (seq 0 (Z.to_nat nsteps)).
Proof.
  intros Hshape. unfold worker_loop.
  destruct (loop_runs (seq 0 (Z.to_nat nsteps))
              (worker_init rows nmax nsteps block) _ _ block
              (worker_init_frame rows nmax nsteps block ltac:(lia)) Hshape)
    as (st' & Hloop & Htrace).
  exists st'. split; [exact Hloop |]. rewrite Htrace. reflexivity.
Qed.

End LoopRuns.

(** Under the same conditions the worker does hand its block and its
    series to the coordinator. *)
Lemma worker_hands_over rows nmax temp above below offset nsteps ds hs block :
  0 <= 0.1 + temp ->
  (0 < rows)%Z -> (0 < nmax)%Z ->
  (forall it,
     shape (aran (ds it)) (Z.to_nat rows) (Z.to_nat nmax) /\
     shape (boltz_random (ds it)) (Z.to_nat rows) (Z.to_nat nmax)) ->
  shape block (Z.to_nat rows) (Z.to_nat nmax) ->
  exists res,
    handed_over offset rows
      (worker_loop rows nmax temp above below nsteps ds hs
         (worker_init rows nmax nsteps block)) = Some res.
Proof.
  intros Hs Hr Hn Hd Hb.
  destruct (worker_loop_runs rows nmax temp above below ds hs Hs Hr Hn Hd
              nsteps block Hb) as (st' & Hloop & _).
  rewrite Hloop. simpl. eauto.
Qed.

(** ** Order of the events in a trace *)

Lemma event_eqb_step a b : event_eqb a b = true -> step_of a = step_of b.
Proof.
  destruct a, b; simpl; try discriminate; intros H;
    now apply Nat.eqb_eq in H.
Qed.

Lemma position_app e l1 l2 :
  position e (l1 ++ l2)
  = match position e l1 with
    | Some i => Some i
    | None => option_map (Nat.add (length l1)) (position e l2)
    end.
Proof.
  induction l1 as [| x l1 IH]; simpl.
  - now destruct (position e l2).
  - destruct (event_eqb e x); [reflexivity |].
    rewrite IH. destruct (position e l1); simpl; [reflexivity |].
    now destruct (position e l2).
Qed.

Lemma position_other_steps e l :
  (forall x, In x l -> step_of x <> step_of e) -> position e l = None.
Proof.
  induction l as [| x l IH]; intros H; simpl; [reflexivity |].
  destruct (event_eqb e x) eqn:E.
  - apply event_eqb_step in E. exfalso. apply (H x); [now left | auto].
  - rewrite IH; [reflexivity |]. intros y Hy. apply H. now right.
Qed.

Lemma step_of_events_of_step it x :
  In x (events_of_step it) -> step_of x = it.
Proof.
  unfold events_of_step. simpl.
  intros [<- | [<- | [<- | [<- | []]]]]; reflexivity.
Qed.

Lemma position_in_steps e s n :
  (s <= step_of e < s + n)%nat ->
  position e (flat_map events_of_step (seq s n))
  = option_map (Nat.add (4 * (step_of e - s)))
      (position e (events_of_step (step_of e))).
Proof.
  revert s. induction n as [| n IH]; intros s Hs; [lia |].
  cbn [seq flat_map]. rewrite position_app.
  destruct (Nat.eq_dec (step_of e) s) as [E | N].
  - rewrite <- E, Nat.sub_diag.
    destruct (position e (events_of_step (step_of e))) as [i |] eqn:P.
    + reflexivity.
    + exfalso. destruct e; simpl in P; rewrite Nat.eqb_refl in P;
        discriminate.
  - rewrite position_other_steps.
    + rewrite IH by lia.
      destruct (position e (events_of_step (step_of e))); simpl;
        [f_equal; lia | reflexivity].
    + intros x Hx. apply step_of_events_of_step in Hx. lia.
Qed.

Lemma steps_in_order n t :
  (t < n)%nat ->
  sweep_measure_exchange (flat_map events_of_step (seq 0 n)) t.
Proof.
  intros Ht. unfold sweep_measure_exchange, before.
  pose proof (position_in_steps (EvSweep t) 0 n ltac:(simpl; lia)) as P1.
  pose proof (position_in_steps (EvEnergy t) 0 n ltac:(simpl; lia)) as P2.
  pose proof (position_in_steps (EvOrder t) 0 n ltac:(simpl; lia)) as P3.
  pose proof (position_in_steps (EvExchange t) 0 n ltac:(simpl; lia)) as P4.
  cbn [step_of events_of_step position event_eqb] in P1, P2, P3, P4.
  rewrite Nat.eqb_refl in P1, P2, P3, P4.
  cbn [option_map] in P1, P2, P3, P4.
  rewrite P1, P2, P3, P4.
  repeat split; do 2 eexists; (split; [reflexivity |]);
    (split; [reflexivity |]); lia.
Qed.

(** C1 (as the code has it): a worker with a non-empty block of
    [rows] x [nmax] cells, draws of that shape and a temperature with
    [0.1 + temp >= 0] runs all its steps, and its trace is, for the steps
    0, 1, ... in turn, the sweep, the energy, the order parameter and then
    the halo exchange.  So in every step [t] the sweep comes before the two
    measurements and both come before the exchange of that step. *)
Theorem measure_before_exchange
  (rows nmax : Z) (temp : R) (above below nsteps : Z)
  (ds : nat -> draws) (hs : nat -> halo) (block : array2) :
  0 <= 0.1 + temp ->
  (0 < rows)%Z -> (0 < nmax)%Z ->
  (forall it,
     shape (aran (ds it)) (Z.to_nat rows) (Z.to_nat nmax) /\
     shape (boltz_random (ds it)) (Z.to_nat rows) (Z.to_nat nmax)) ->
  shape block (Z.to_nat rows) (Z.to_nat nmax) ->
  exists st',
    worker_loop rows nmax temp above below nsteps ds hs
      (worker_init rows nmax nsteps block) = Some (tt, st') /\
    trace st' = flat_map events_of_step (seq 0 (Z.to_nat nsteps)) /\
    forall t, (t < Z.to_nat nsteps)%nat ->
      sweep_measure_exchange (trace st') t.
Proof.
  intros Hs Hr Hn Hd Hb.
  destruct (worker_loop_runs rows nmax temp above below ds hs Hs Hr Hn Hd
              nsteps block Hb) as (st' & Hloop & Htrace).
  exists st'. split; [exact Hloop |]. split; [exact Htrace |].
  intros t Ht. rewrite Htrace. now apply steps_in_order.
Qed.

Lemma draws_zero_shape it :
  shape (aran (draws_zero it)) (Z.to_nat 1) (Z.to_nat 1) /\
  shape (boltz_random (draws_zero it)) (Z.to_nat 1) (Z.to_nat 1).
Proof. split; (split; [reflexivity | repeat constructor]). Qed.

Lemma block_zero_shape : shape [[0]] (Z.to_nat 1) (Z.to_nat 1).
Proof. split; [reflexivity | repeat constructor]. Qed.

Lemma measure_before_exchange_witness :
  exists st',
    worker_loop 1 1 1 1 1 1 draws_zero halo_zero
      (worker_init 1 1 1 [[0]]) = Some (tt, st') /\
    trace st' = [EvSweep 0; EvEnergy 0; EvOrder 0; EvExchange 0].
Proof.
  destruct (measure_before_exchange 1 1 1 1 1 1 draws_zero halo_zero [[0]]
              ltac:(lra) ltac:(lia) ltac:(lia)
              draws_zero_shape block_zero_shape)
    as (st' & Hloop & Htrace & _).
  exists st'. split; [exact Hloop | exact Htrace].
Defined.

(** C1 as stated fails: in a run of one step the exchange is the last
    event, after both measurements, so the order sweep, exchange, measure
    does not hold. *)
Lemma exchange_not_before_measure :
  exists st',
    worker_loop 1 1 1 1 1 1 draws_zero halo_zero
      (worker_init 1 1 1 [[0]]) = Some (tt, st') /\
    ~ sweep_exchange_measure (trace st') 0.
Proof.
  destruct (worker_loop_runs 1 1 1 1 1 draws_zero halo_zero
              ltac:(lra) ltac:(lia) ltac:(lia) draws_zero_shape
              1 [[0]] block_zero_shape)
    as (st' & Hloop & Htrace).
  exists st'. split; [exact Hloop |].
  rewrite Htrace. intros (_ & (i & j & Pi & Pj & Hij) & _).
  simpl in Pi, Pj. injection Pi as <-. injection Pj as <-. lia.
Qed.

(** ** Temperature *)




(** ** Summary line *)

Lemma final_outputs_order nmax nsteps temp order ratio runtime :
  (1 <= nsteps)%Z ->
  Z.of_nat (length order) = (nsteps + 1)%Z ->
  option_map s_order (final_outputs nmax nsteps temp order ratio runtime)
  = nth_error order (Z.to_nat (nsteps - 1)).
Proof.
  intros Hn Hl. unfold final_outputs, Py.getitem.
  replace (nsteps - 1)%Z with (Z.of_nat (Z.to_nat (nsteps - 1))) at 1
    by lia.
  rewrite index_front by lia.
  destruct (nth_error order (Z.to_nat (nsteps - 1))); reflexivity.
Qed.

(** C4, the code at a run of one step: the coordinator's series of the
    order parameter is [o0], the value before any step, followed by the
    reduced value [m / numworkers] of the step.  The order parameter of
    the summary line is entry 0, [o0], while the final value of the run is
    entry [nsteps] = 1. *)
Theorem summary_order_one_step
  (nmax numworkers : Z) (temp runtime o0 m : R) (ratio : array1) :
  let order := order_series o0 [m] numworkers in
  option_map s_order (final_outputs nmax 1 temp order ratio runtime)
  = Some o0 /\
  Py.getitem order 1 = Some (m / IZR numworkers).
Proof. intros order. split; reflexivity. Qed.

(** ** Energy of the blocks against energy of the lattice *)

Lemma en_term_aligned : en_term 0 = -1.
Proof. unfold en_term. rewrite cos_0. lra. Qed.

Lemma en_term_crossed : en_term (PI / 2) = 0.5.
Proof. unfold en_term. rewrite cos_PI2. lra. Qed.

Lemma en_term_crossed_neg : en_term (- (PI / 2)) = 0.5.
Proof. unfold en_term. rewrite cos_neg, cos_PI2. lra. Qed.

(** C2, the code on a 2 x 2 lattice with two workers: the rows are
    [0, 0] and [pi/2, pi/2]; each worker gets one row, and its ghost rows
    hold the other row.  The energy of the lattice is -4; the energy each
    worker measures, on [local_lattice[1:-1, :]], is -8; their sum in the
    reduction is -16. *)
Theorem block_energies_two_workers :
  let lattice := [[0; 0]; [PI / 2; PI / 2]] in
  let ll1 := [PI / 2; PI / 2] :: [[0; 0]] ++ [[PI / 2; PI / 2]] in
  let ll2 := [0; 0] :: [[PI / 2; PI / 2]] ++ [[0; 0]] in
  let at_worker ll :=
    {| local_lattice := ll; worker_energy := zeros 1;
       worker_ratio := zeros 1; worker_order := zeros 1;
       outbox := []; trace := [] |} in
  map a_block (partition lattice 2 2) = [interior ll1; interior ll2] /\
  all_energy lattice = -4 /\
  option_map fst (do_all_energy 0 (at_worker ll1)) = Some (-8) /\
  option_map fst (do_all_energy 0 (at_worker ll2)) = Some (-8) /\
  reduce_sum (zeros 1)
    [[all_energy (interior ll1)]; [all_energy (interior ll2)]] = [-16].
Proof.
  intros lattice ll1 ll2 at_worker.
  assert (D0 : forall x : R, x - x = 0) by (intros; lra).
  assert (D1 : 0 - PI / 2 = - (PI / 2)) by lra.
  assert (D2 : PI / 2 - 0 = PI / 2) by lra.
  assert (E0 : all_energy lattice = -4).
  { unfold all_energy, lattice, one_energy_vec, sum2, sum1.
    cbn -[en_term Rminus Rplus PI Rdiv].
    rewrite !D0, !D1, !D2, en_term_aligned, en_term_crossed,
      en_term_crossed_neg. lra. }
  assert (E1 : all_energy (interior ll1) = -8).
  { unfold all_energy, ll1, one_energy_vec, sum2, sum1.
    cbn -[en_term Rminus Rplus PI Rdiv].
    rewrite !D0, en_term_aligned. lra. }
  assert (E2 : all_energy (interior ll2) = -8).
  { unfold all_energy, ll2, one_energy_vec, sum2, sum1.
    cbn -[en_term Rminus Rplus PI Rdiv].
    rewrite !D0, en_term_aligned. lra. }
  split; [reflexivity |]. split; [exact E0 |].
  split; [simpl; now rewrite <- E1 |]. split; [simpl; now rewrite <- E2 |].
  rewrite E1, E2. unfold reduce_sum, zeros. simpl. f_equal. lra.
Qed.

(** * Further properties of the code *)

(** ** Energy: bounds *)

Lemma en_term_bounds (x : R) : -1 <= en_term x <= 0.5.
Proof.
  unfold en_term. pose proof (COS_bound x) as [H1 H2].
  assert (0 <= cos x ^ 2 <= 1) by nra. lra.
Qed.

Lemma sum_over_bounds n (f : nat -> R) lo hi :
  (forall i, (i < n)%nat -> lo <= f i <= hi) ->
  INR n * lo <= sum_over n f <= INR n * hi.
Proof.
  revert f. induction n as [| n IH]; intros f H.
  - unfold sum_over. simpl. lra.
  - rewrite sum_over_S, S_INR.
    pose proof (H 0%nat ltac:(lia)) as H0.
    pose proof (IH (fun i => f (S i)) ltac:(intros i Hi; apply H; lia)) as Hn.
    lra.
Qed.

(** X2: on a block of [r] x [c] cells every cell has an energy between -4
    and 2, and the total energy lies between [-4 r c] and [2 r c]. *)
Theorem energy_bounds (arr : array2) (r c : nat) :
  shape arr r c ->
  (forall i j, (i < r)%nat -> (j < c)%nat ->
     -4 <= get2 (one_energy_vec arr) i j <= 2) /\
  -4 * INR (r * c) <= all_energy arr <= 2 * INR (r * c).
Proof.
  intros Sa.
  assert (Hcell : forall i j, (i < r)%nat -> (j < c)%nat ->
            -4 <= get2 (one_energy_vec arr) i j <= 2).
  { intros i j Hi Hj. rewrite (get2_one_energy_vec arr r c) by assumption.
    unfold pair_energy.
    pose proof (en_term_bounds
                  (get2 arr i j - get2 arr ((i + 1) mod r) j)).
    pose proof (en_term_bounds
                  (get2 arr i j - get2 arr ((i + r - 1) mod r) j)).
    pose proof (en_term_bounds
                  (get2 arr i j - get2 arr i ((j + 1) mod c))).
    pose proof (en_term_bounds
                  (get2 arr i j - get2 arr i ((j + c - 1) mod c))).
    lra. }
  split; [exact Hcell |].
  unfold all_energy.
  rewrite (sum2_get2 _ r c) by now apply shape_one_energy_vec.
  pose proof (sum_over_bounds r
                (fun i => sum_over c
                            (fun j => get2 (one_energy_vec arr) i j))
                (INR c * -4) (INR c * 2)) as Hb.
  rewrite mult_INR.
  destruct Hb as [H1 H2].
  { intros i Hi. apply sum_over_bounds. intros j Hj. now apply Hcell. }
  lra.
Qed.

Lemma energy_bounds_witness :
  -4 * INR (1 * 2) <= all_energy [[0; 1]] <= 2 * INR (1 * 2).
Proof.
  apply (energy_bounds [[0; 1]] 1 2).
  split; [reflexivity | repeat constructor].
Defined.

Lemma shape_repeat {A : Type} (x : A) (r c : nat) :
  shape (repeat (repeat x c) r) r c.
Proof.
  split.
  - apply repeat_length.
  - apply Forall_forall. intros row Hrow.
    apply repeat_spec in Hrow. subst. apply repeat_length.
Qed.

Lemma get2_repeat (t : R) (r c i j : nat) :
  (i < r)%nat -> (j < c)%nat -> get2 (repeat (repeat t c) r) i j = t.
Proof.
  intros Hi Hj. unfold get2.
  rewrite (nth_repeat_lt (repeat t c)) by assumption.
  now apply nth_repeat_lt.
Qed.

(** X3: a block whose cells all hold the same angle has the lowest energy
    the bounds allow: -4 in every cell and [-4 r c] in total. *)
Theorem energy_aligned (t : R) (r c : nat) :
  (forall i j, (i < r)%nat -> (j < c)%nat ->
     get2 (one_energy_vec (repeat (repeat t c) r)) i j = -4) /\
  all_energy (repeat (repeat t c) r) = -4 * INR (r * c).
Proof.
  pose proof (shape_repeat t r c) as Sa.
  assert (Hcell : forall i j, (i < r)%nat -> (j < c)%nat ->
            get2 (one_energy_vec (repeat (repeat t c) r)) i j = -4).
  { intros i j Hi Hj. rewrite (get2_one_energy_vec _ r c) by assumption.
    rewrite !get2_repeat;
      try assumption; try (apply Nat.mod_upper_bound; lia).
    unfold pair_energy. replace (t - t) with 0 by ring.
    rewrite en_term_aligned. lra. }
  split; [exact Hcell |].
  unfold all_energy.
  rewrite (sum2_get2 _ r c) by now apply shape_one_energy_vec.
  pose proof (sum_over_bounds r
                (fun i => sum_over c
                   (fun j => get2 (one_energy_vec (repeat (repeat t c) r))
                               i j))
                (INR c * -4) (INR c * -4)) as Hb.
  rewrite mult_INR.
  destruct Hb as [H1 H2].
  { intros i Hi.
    pose proof (sum_over_bounds c
                  (fun j => get2 (one_energy_vec (repeat (repeat t c) r))
                              i j) (-4) (-4)) as Hc.
    destruct Hc as [H1 H2]; [| lra].
    intros j Hj. rewrite Hcell by assumption. lra. }
  lra.
Qed.

(** ** The two checkerboard masks *)

Lemma nth_map_seq {A : Type} (f : nat -> A) (n i : nat) (d : A) :
  (i < n)%nat -> nth i (map f (seq 0 n)) d = f i.
Proof.
  intros Hi. rewrite (nth_indep _ d (f 0%nat)) by now rewrite length_map, length_seq.
  rewrite map_nth, seq_nth by assumption. reflexivity.
Qed.

Lemma getb_diag_mask_1 rows nmax i j :
  (i < Z.to_nat rows)%nat -> (j < Z.to_nat nmax)%nat ->
  getb (diag_mask_1 rows nmax) i j = Nat.eqb ((i + j) mod 2) 0.
Proof.
  intros Hi Hj. unfold getb, diag_mask_1.
  rewrite (nth_map_seq _ _ _ []) by assumption.
  now rewrite nth_map_seq.
Qed.

Lemma getb_diag_mask_2 rows nmax i j :
  (i < Z.to_nat rows)%nat -> (j < Z.to_nat nmax)%nat ->
  getb (diag_mask_2 rows nmax) i j = negb (Nat.eqb ((i + j) mod 2) 0).
Proof.
  intros Hi Hj. unfold getb, diag_mask_2.
  rewrite (nth_map_map negb _ _ _ i j false false (shape_diag_mask_1 rows nmax))
    by assumption.
  f_equal. now apply getb_diag_mask_1.
Qed.

Ltac parity_of x :=
  pose proof (Nat.div_mod_eq x 2);
  pose proof (Nat.mod_upper_bound x 2 ltac:(discriminate)).

(** The colour changes from a cell to the next one, cyclically, when the
    length of the axis is even. *)
Lemma colour_next n i k :
  (n mod 2 = 0)%nat -> (i < n)%nat ->
  Nat.eqb ((((i + 1) mod n) + k) mod 2) 0
  = negb (Nat.eqb ((i + k) mod 2) 0).
Proof.
  intros Hn Hi. parity_of n. parity_of k. parity_of (i + k)%nat.
  destruct (Nat.eq_dec (i + 1) n) as [E | N].
  - rewrite E, Nat.Div0.mod_same, Nat.add_0_l.
    destruct (Nat.eqb_spec (k mod 2) 0), (Nat.eqb_spec ((i + k) mod 2) 0);
      simpl; try reflexivity; exfalso; lia.
  - rewrite (Nat.mod_small (i + 1) n) by lia. parity_of (i + 1 + k)%nat.
    destruct (Nat.eqb_spec ((i + 1 + k) mod 2) 0),
      (Nat.eqb_spec ((i + k) mod 2) 0);
      simpl; try reflexivity; exfalso; lia.
Qed.

Lemma colour_prev n i k :
  (n mod 2 = 0)%nat -> (i < n)%nat ->
  Nat.eqb ((((i + n - 1) mod n) + k) mod 2) 0
  = negb (Nat.eqb ((i + k) mod 2) 0).
Proof.
  intros Hn Hi. parity_of n.
  destruct i as [| i].
  - rewrite (Nat.mod_small (0 + n - 1) n) by lia.
    parity_of (0 + n - 1 + k)%nat. parity_of (0 + k)%nat.
    destruct (Nat.eqb_spec ((0 + n - 1 + k) mod 2) 0),
      (Nat.eqb_spec ((0 + k) mod 2) 0);
      simpl; try reflexivity; exfalso; lia.
  - replace (S i + n - 1)%nat with (i + 1 * n)%nat by lia.
    rewrite Nat.Div0.mod_add, (Nat.mod_small i n) by lia.
    parity_of (i + k)%nat. parity_of (S i + k)%nat.
    destruct (Nat.eqb_spec ((i + k) mod 2) 0),
      (Nat.eqb_spec ((S i + k) mod 2) 0);
      simpl; try reflexivity; exfalso; lia.
Qed.

(** With even numbers of rows and columns the four neighbours of a cell
    have the other colour. *)
Lemma diag_mask_1_neighbours rows nmax i j :
  (i < Z.to_nat rows)%nat -> (j < Z.to_nat nmax)%nat ->
  (Z.to_nat rows mod 2 = 0)%nat -> (Z.to_nat nmax mod 2 = 0)%nat ->
  let r := Z.to_nat rows in
  let c := Z.to_nat nmax in
  let m1 := getb (diag_mask_1 rows nmax) in
  m1 ((i + 1) mod r) j = negb (m1 i j) /\
  m1 ((i + r - 1) mod r) j = negb (m1 i j) /\
  m1 i ((j + 1) mod c) = negb (m1 i j) /\
  m1 i ((j + c - 1) mod c) = negb (m1 i j).
Proof.
  intros Hi Hj Hr Hc r c m1.
  assert (Br : forall x, (x mod r < r)%nat)
    by (intros; apply Nat.mod_upper_bound; unfold r; lia).
  assert (Bc : forall x, (x mod c < c)%nat)
    by (intros; apply Nat.mod_upper_bound; unfold c; lia).
  unfold m1.
  rewrite !getb_diag_mask_1; try assumption; try apply Br; try apply Bc.
  repeat split.
  - now apply colour_next.
  - now apply colour_prev.
  - rewrite (Nat.add_comm i ((j + 1) mod c)), (Nat.add_comm i j).
    now apply colour_next.
  - rewrite (Nat.add_comm i ((j + c - 1) mod c)), (Nat.add_comm i j).
    now apply colour_prev.
Qed.

(** X6: the two masks of a sweep split the cells of the block by the
    parity of row + column: a cell is in the first mask when the sum is
    even and in the second when it is odd, so in exactly one of them.
    When the number of rows and the number of columns are both even, the
    four neighbours of a cell, with the wrap-around, are all in the other
    mask. *)
Theorem checkerboard_masks (rows nmax : Z) (i j : nat) :
  (i < Z.to_nat rows)%nat -> (j < Z.to_nat nmax)%nat ->
  let r := Z.to_nat rows in
  let c := Z.to_nat nmax in
  let m1 := getb (diag_mask_1 rows nmax) in
  let m2 := getb (diag_mask_2 rows nmax) in
  m1 i j = Nat.eqb ((i + j) mod 2) 0 /\
  m2 i j = negb (m1 i j) /\
  ((r mod 2 = 0)%nat -> (c mod 2 = 0)%nat ->
   m1 ((i + 1) mod r) j = negb (m1 i j) /\
   m1 ((i + r - 1) mod r) j = negb (m1 i j) /\
   m1 i ((j + 1) mod c) = negb (m1 i j) /\
   m1 i ((j + c - 1) mod c) = negb (m1 i j)).
Proof.
  intros Hi Hj r c m1 m2.
  assert (H1 : m1 i j = Nat.eqb ((i + j) mod 2) 0)
    by now apply getb_diag_mask_1.
  split; [exact H1 |]. split.
  { unfold m2. rewrite getb_diag_mask_2 by assumption. now rewrite H1. }
  intros Hr Hc. now apply diag_mask_1_neighbours.
Qed.

Lemma checkerboard_masks_witness :
  getb (diag_mask_1 2 4) 1 2 = false /\
  getb (diag_mask_2 2 4) 1 2 = true.
Proof.
  destruct (checkerboard_masks 2 4 1 2 ltac:(simpl; lia) ltac:(simpl; lia))
    as (H1 & H2 & _).
  split; [exact H1 |]. rewrite H2, H1. reflexivity.
Defined.

(** X7: with an odd number of rows the checkerboard does not survive the
    wrap-around: the cells of the last and of the first row of a column
    are neighbours and lie in the same mask, so both carry their proposal
    in the same phase. *)
Theorem checkerboard_odd_rows (rows nmax : Z) (j : nat) :
  (0 < rows)%Z -> (Z.to_nat rows mod 2 = 1)%nat ->
  (j < Z.to_nat nmax)%nat ->
  let r := Z.to_nat rows in
  ((r - 1 + 1) mod r = 0)%nat /\
  getb (diag_mask_1 rows nmax) (r - 1) j = getb (diag_mask_1 rows nmax) 0 j /\
  getb (diag_mask_2 rows nmax) (r - 1) j = getb (diag_mask_2 rows nmax) 0 j.
Proof.
  intros Hr Hodd Hj r.
  assert (Hpos : (0 < r)%nat) by (unfold r; lia).
  assert (Hcol : Nat.eqb ((r - 1 + j) mod 2) 0 = Nat.eqb ((0 + j) mod 2) 0).
  { fold r in Hodd. parity_of r. parity_of (r - 1 + j)%nat.
    parity_of (0 + j)%nat.
    destruct (Nat.eqb_spec ((r - 1 + j) mod 2) 0),
      (Nat.eqb_spec ((0 + j) mod 2) 0);
      simpl; try reflexivity; exfalso; lia. }
  split.
  { replace (r - 1 + 1)%nat with r by lia. apply Nat.Div0.mod_same. }
  rewrite !getb_diag_mask_1, !getb_diag_mask_2 by (fold r; lia).
  split; [exact Hcol | now rewrite Hcol].
Qed.

Lemma checkerboard_odd_rows_witness :
  getb (diag_mask_1 3 2) (3 - 1) 0 = getb (diag_mask_1 3 2) 0 0.
Proof.
  destruct (checkerboard_odd_rows 3 2 0 ltac:(lia) eq_refl
              ltac:(simpl; lia)) as (_ & H & _).
  exact H.
Defined.

(** ** A sweep, cell by cell *)





(** X8: in a block with even numbers of rows and columns, the energy that
    a phase compares for a cell of its mask, after all the cells of the
    mask got their proposal, is the energy of that cell moved alone: no
    neighbour of the cell moves in the same phase. *)
Theorem phase_energy_single_site
  (arr aran : array2) (rows nmax : Z) (i j : nat) :
  let r := Z.to_nat rows in
  let c := Z.to_nat nmax in
  (r mod 2 = 0)%nat -> (c mod 2 = 0)%nat ->
  shape arr r c -> shape aran r c ->
  (i < r)%nat -> (j < c)%nat ->
  (getb (diag_mask_1 rows nmax) i j = true ->
   get2 (one_energy_vec (proposal (diag_mask_1 rows nmax) arr aran)) i j
   = energy_if_moved arr aran r c i j) /\
  (getb (diag_mask_2 rows nmax) i j = true ->
   get2 (one_energy_vec (proposal (diag_mask_2 rows nmax) arr aran)) i j
   = energy_if_moved arr aran r c i j).
Proof.
  intros r c Hr Hc Sa Sn Hi Hj.
  destruct (diag_mask_1_neighbours rows nmax i j Hi Hj Hr Hc)
    as (N1 & N2 & N3 & N4).
  assert (Br : forall x, (x mod r < r)%nat)
    by (intros; apply Nat.mod_upper_bound; lia).
  assert (Bc : forall x, (x mod c < c)%nat)
    by (intros; apply Nat.mod_upper_bound; lia).
  split; intros M.
  - apply (independent_phase_energy arr aran _ r c); auto;
      try apply shape_diag_mask_1.
    + fold r in N1. rewrite N1, M. reflexivity.
    + fold r in N2. rewrite N2, M. reflexivity.
    + fold c in N3. rewrite N3, M. reflexivity.
    + fold c in N4. rewrite N4, M. reflexivity.
  - rewrite getb_diag_mask_2 in M by assumption.
    rewrite <- (getb_diag_mask_1 rows nmax) in M by assumption.
    apply negb_true_iff in M.
    apply (independent_phase_energy arr aran _ r c); auto;
      try apply shape_diag_mask_2.
    + rewrite getb_diag_mask_2,
        <- (getb_diag_mask_1 rows nmax), M by assumption. reflexivity.
    + rewrite getb_diag_mask_2, <- (getb_diag_mask_1 rows nmax)
        by (try assumption; apply Br).
      fold r in N1. rewrite N1, M. reflexivity.
    + rewrite getb_diag_mask_2, <- (getb_diag_mask_1 rows nmax)
        by (try assumption; apply Br).
      fold r in N2. rewrite N2, M. reflexivity.
    + rewrite getb_diag_mask_2, <- (getb_diag_mask_1 rows nmax)
        by (try assumption; apply Bc).
      fold c in N3. rewrite N3, M. reflexivity.
    + rewrite getb_diag_mask_2, <- (getb_diag_mask_1 rows nmax)
        by (try assumption; apply Bc).
      fold c in N4. rewrite N4, M. reflexivity.
Qed.

Lemma phase_energy_single_site_witness :
  let arr := [[0; 1]; [2; 3]] in
  let aran := [[1; 1]; [1; 1]] in
  get2 (one_energy_vec (proposal (diag_mask_1 2 2) arr aran)) 0 0
  = energy_if_moved arr aran 2 2 0 0.
Proof.
  intros arr aran.
  assert (Sa : shape arr 2 2) by (split; [reflexivity | repeat constructor]).
  assert (Sn : shape aran 2 2) by (split; [reflexivity | repeat constructor]).
  destruct (phase_energy_single_site arr aran 2 2 0 0 eq_refl eq_refl Sa Sn
              ltac:(simpl; lia) ltac:(simpl; lia)) as [H _].
  exact (H eq_refl).
Defined.



(** ** The halo exchange *)

Lemma last_default {A : Type} (l : list A) (d1 d2 : A) :
  l <> [] -> last l d1 = last l d2.
Proof.
  induction l as [| x l IH]; intros H; [congruence |].
  destruct l as [| y l]; [reflexivity |].
  cbn [last]. apply IH. discriminate.
Qed.

Lemma nth_error_before_last {A : Type} (g : A) (l t : list A) :
  nth_error (g :: l ++ t) (length l) = Some (last l g).
Proof.
  revert g. induction l as [| x l IH]; intros g; [reflexivity |].
  cbn [length nth_error app]. rewrite IH.
  destruct l as [| y l]; [reflexivity |].
  f_equal. change (last (x :: y :: l) g) with (last (y :: l) g).
  apply last_default. discriminate.
Qed.

(** [ll[-2]] is the last interior row, and the top ghost row when there
    is no interior row. *)
Lemma getitem_m2_last (g1 g2 : list R) (rows_in : list (list R)) :
  Py.getitem (g1 :: rows_in ++ [g2]) (-2) = Some (last rows_in g1).
Proof.
  unfold Py.getitem. rewrite length_frame.
  rewrite (index_back _ 2) by lia.
  replace (S (S (length rows_in)) - 2)%nat with (length rows_in) by lia.
  apply nth_error_before_last.
Qed.

(** [ll[1]] is the first interior row, and the bottom ghost row when there
    is no interior row. *)
Lemma getitem_1_hd (g1 g2 : list R) (rows_in : list (list R)) :
  Py.getitem (g1 :: rows_in ++ [g2]) 1 = Some (hd g2 rows_in).
Proof.
  unfold Py.getitem. rewrite length_frame.
  rewrite (index_front _ 1) by lia.
  destruct rows_in; reflexivity.
Qed.

Lemma halo_sends_frame above below (g1 g2 : list R)
  (rows_in : list (list R)) :
  halo_sends above below (g1 :: rows_in ++ [g2])
  = Some [{| m_dest := below; m_tag := ABOVE; m_row := last rows_in g1 |};
          {| m_dest := above; m_tag := BELOW; m_row := hd g2 rows_in |}].
Proof.
  unfold halo_sends. now rewrite getitem_m2_last, getitem_1_hd.
Qed.

(** X10: one exchange of a worker whose lattice is a top ghost row [g1],
    interior rows and a bottom ghost row [g2].  It posts the last interior
    row to [below] with tag [ABOVE] and the first interior row to [above]
    with tag [BELOW], overwrites the two ghost rows with the rows that
    arrive, and changes neither the interior rows nor the series. *)
Theorem exchange_rows (above below : Z) (it : nat) (h : halo)
  (g1 g2 : array1) (rows_in : array2) (en ra ord : array1)
  (out : list message) (tr : list event) :
  exchange above below it h
    {| local_lattice := g1 :: rows_in ++ [g2];
       worker_energy := en; worker_ratio := ra; worker_order := ord;
       outbox := out; trace := tr |}
  = Some (tt,
      {| local_lattice := from_above h :: rows_in ++ [from_below h];
         worker_energy := en; worker_ratio := ra; worker_order := ord;
         outbox := out ++
           [{| m_dest := below; m_tag := ABOVE; m_row := last rows_in g1 |};
            {| m_dest := above; m_tag := BELOW; m_row := hd g2 rows_in |}];
         trace := tr ++ [EvExchange it] |}).
Proof.
  unfold exchange, bind, log, get_lattice, lift, send, put_lattice.
  cbn [local_lattice worker_energy worker_ratio worker_order outbox trace].
  rewrite getitem_m2_last.
  cbn [local_lattice worker_energy worker_ratio worker_order outbox trace].
  rewrite setitem_frame_m1, getitem_1_hd.
  cbn [local_lattice worker_energy worker_ratio worker_order outbox trace].
  rewrite setitem_frame_0.
  rewrite <- app_assoc. reflexivity.
Qed.

(** The ring closes: a worker is below its above neighbour and above its
    below neighbour. *)
Lemma neighbours_closed (P i : Z) :
  (1 <= i <= P)%Z ->
  snd (neighbours P (fst (neighbours P i))) = i /\
  fst (neighbours P (snd (neighbours P i))) = i.
Proof.
  intros Hi.
  destruct (Z.eq_dec i 1) as [-> | N1].
  - rewrite neighbours_first. cbn [fst snd].
    destruct (Z.gtb_spec P 1) as [G | G].
    + split.
      * rewrite neighbours_last by lia. reflexivity.
      * destruct (Z.eq_dec P 2) as [-> | N2]; [reflexivity |].
        rewrite neighbours_inner by lia. simpl. lia.
    + assert (P = 1%Z) as -> by lia. split; reflexivity.
  - destruct (Z.eq_dec i P) as [-> | NP].
    + rewrite neighbours_last by lia. cbn [fst snd]. split.
      * destruct (Z.eq_dec P 2) as [-> | N2]; [reflexivity |].
        rewrite neighbours_inner by lia. simpl. lia.
      * reflexivity.
    + rewrite (neighbours_inner P i) by lia. cbn [fst snd]. split.
      * destruct (Z.eq_dec (i - 1) 1) as [E | N2].
        -- rewrite E, neighbours_first.
           destruct (Z.gtb_spec P 1); simpl; lia.
        -- rewrite neighbours_inner by lia. simpl. lia.
      * destruct (Z.eq_dec (i + 1) P) as [E | N2].
        -- rewrite E, neighbours_last by lia. simpl. lia.
        -- rewrite neighbours_inner by lia. simpl. lia.
Qed.

(** X11: the exchange around the ring of [P] workers.  When every worker
    [k] holds a top ghost row, interior rows [inner k] and a bottom ghost
    row and posts its two rows to the neighbours the partitioner gave it,
    the receives of worker [i] complete with the last interior row of the
    worker above it and the first interior row of the worker below it.
    With one worker these are its own last and first rows. *)
Theorem ring_exchange (P i : Z) (top bottom : Z -> array1)
  (inner : Z -> array2) (sent_by : Z -> list message) :
  (1 <= i <= P)%Z ->
  (forall k, (1 <= k <= P)%Z ->
     halo_sends (fst (neighbours P k)) (snd (neighbours P k))
       (top k :: inner k ++ [bottom k]) = Some (sent_by k)) ->
  let above := fst (neighbours P i) in
  let below := snd (neighbours P i) in
  (1 <= above <= P)%Z /\ (1 <= below <= P)%Z /\
  halo_received sent_by i above below
  = Some {| from_above := last (inner above) (top above);
            from_below := hd (bottom below) (inner below) |}.
Proof.
  intros Hi Hsent above below.
  destruct (neighbours_closed P i Hi) as [Ca Cb]. fold above in Ca.
  fold below in Cb.
  assert (Ha : (1 <= above <= P)%Z).
  { unfold above, neighbours.
    destruct (Z.eqb_spec i 1); [simpl; lia |].
    destruct (Z.eqb_spec i P); simpl; lia. }
  assert (Hb : (1 <= below <= P)%Z).
  { unfold below, neighbours.
    destruct (Z.eqb_spec i 1);
      [destruct (Z.gtb_spec P 1); simpl; lia |].
    destruct (Z.eqb_spec i P); simpl; lia. }
  split; [exact Ha |]. split; [exact Hb |].
  pose proof (Hsent above Ha) as Sa. pose proof (Hsent below Hb) as Sb.
  rewrite halo_sends_frame in Sa, Sb.
  injection Sa as Sa. injection Sb as Sb.
  unfold halo_received, matching. rewrite <- Sa, <- Sb.
  cbn [find m_dest m_tag]. rewrite Ca, Cb, !Z.eqb_refl.
  cbn [andb]. unfold ABOVE, BELOW.
  replace (2 =? 3)%Z with false by reflexivity.
  rewrite andb_false_r. reflexivity.
Qed.

Lemma ring_exchange_witness :
  let sent := fun _ : Z =>
    [{| m_dest := 1; m_tag := ABOVE; m_row := [3; 4] |};
     {| m_dest := 1; m_tag := BELOW; m_row := [1; 2] |}] in
  halo_received sent 1 1 1
  = Some {| from_above := [3; 4]; from_below := [1; 2] |}.
Proof.
  intros sent.
  destruct (ring_exchange 1 1 (fun _ => [0; 0]) (fun _ => [0; 0])
              (fun _ => [[1; 2]; [3; 4]]) sent ltac:(lia)) as (_ & _ & H).
  - intros k Hk. assert (k = 1%Z) as -> by lia. reflexivity.
  - exact H.
Defined.

(** ** A worker evolves its block on its own *)

Lemma set_nth_app {A : Type} (done : list A) (x v : A) (t : list A) k :
  length done = k ->
  Py.set_nth (done ++ x :: t) k v = done ++ v :: t.
Proof.
  intros <-. unfold Py.set_nth.
  rewrite firstn_app, Nat.sub_diag, firstn_all. cbn [firstn].
  rewrite app_nil_r. f_equal. f_equal.
  replace (S (length done)) with (length done + 1)%nat by lia.
  rewrite skipn_app.
  rewrite skipn_all2 by lia.
  replace (length done + 1 - length done)%nat with 1%nat by lia.
  reflexivity.
Qed.

Section WorkerEvolves.

Variables (rows nmax : Z) (temp : R) (above below : Z).
Variable ds : nat -> draws.
Variable hs : nat -> halo.

Lemma loop_evolve m :
  forall k st (g1 g2 : list R) (rows_in : list (list R))
         (de dr dd : list R),
    local_lattice st = g1 :: rows_in ++ [g2] ->
    worker_energy st = de ++ zeros m ->
    worker_ratio st = dr ++ zeros m ->
    worker_order st = dd ++ zeros m ->
    length de = k -> length dr = k -> length dd = k ->
    match evolve rows nmax temp (seq k m) ds rows_in with
    | None => loop rows nmax temp above below (seq k m) ds hs st = None
    | Some (final, stats) =>
        exists st' g1' g2',
          loop rows nmax temp above below (seq k m) ds hs st
          = Some (tt, st') /\
          local_lattice st' = g1' :: final ++ [g2'] /\
          worker_energy st' = de ++ map stat_energy stats /\
          worker_ratio st' = dr ++ map stat_ratio stats /\
          worker_order st' = dd ++ map stat_order stats
    end.
Proof.
  induction m as [| m IH];
    intros k st g1 g2 rows_in de dr dd Hll He Hr Ho Le Lr Ld.
  - cbn [seq evolve loop map]. exists st, g1, g2.
    cbn [zeros repeat] in He, Hr, Ho.
    repeat split; try assumption; reflexivity.
  - cbn [seq evolve]. rewrite loop_cons.
    destruct (loop_body_frame rows nmax temp above below k (ds k) (hs k)
                st g1 g2 rows_in Hll)
      as [[N C] | (sw & ra & o & r1 & r3 & M & O & B)].
    + rewrite N.
      destruct C as [C | (sw & ra & C & C')].
      * now rewrite C.
      * now rewrite C, C'.
    + rewrite M, O, B.
      assert (Xe : Py.set_nth (worker_energy st) k (all_energy sw)
                   = (de ++ [all_energy sw]) ++ zeros m).
      { rewrite He. change (zeros (S m)) with (0 :: zeros m).
        rewrite set_nth_app by assumption. now rewrite <- app_assoc. }
      assert (Xr : Py.set_nth (worker_ratio st) k ra
                   = (dr ++ [ra]) ++ zeros m).
      { rewrite Hr. change (zeros (S m)) with (0 :: zeros m).
        rewrite set_nth_app by assumption. now rewrite <- app_assoc. }
      assert (Xo : Py.set_nth (worker_order st) k o
                   = (dd ++ [o]) ++ zeros m).
      { rewrite Ho. change (zeros (S m)) with (0 :: zeros m).
        rewrite set_nth_app by assumption. now rewrite <- app_assoc. }
      assert (Le' : length (de ++ [all_energy sw]) = S k)
        by (rewrite length_app; simpl; lia).
      assert (Lr' : length (dr ++ [ra]) = S k)
        by (rewrite length_app; simpl; lia).
      assert (Ld' : length (dd ++ [o]) = S k)
        by (rewrite length_app; simpl; lia).
      match goal with
      | |- context [loop _ _ _ _ _ (seq (S k) m) ds hs ?s] =>
          pose proof (IH (S k) s (from_above (hs k)) (from_below (hs k)) sw
                        (de ++ [all_energy sw]) (dr ++ [ra]) (dd ++ [o])
                        eq_refl Xe Xr Xo Le' Lr' Ld') as IH'
      end.
      destruct (evolve rows nmax temp (seq (S k) m) ds sw)
        as [[final stats] |]; [| exact IH'].
      destruct IH' as (st' & g1' & g2' & L & F & E1 & E2 & E3).
      exists st', g1', g2'. split; [exact L |]. split; [exact F |].
      cbn [map stat_energy stat_ratio stat_order fst snd].
      rewrite E1, E2, E3, <- !app_assoc. repeat split; reflexivity.
Qed.

End WorkerEvolves.

Lemma worker_evolve (nsteps nmax : Z) (temp : R) (a : assignment)
  (ds : nat -> draws) (hs : nat -> halo) :
  (0 <= a_rows a)%Z ->
  worker nsteps nmax temp a ds hs
  = match evolve (a_rows a) nmax temp (seq 0 (Z.to_nat nsteps)) ds
            (a_block a) with
    | Some (final, stats) =>
        Some {| w_done := {| d_offset := a_offset a; d_rows := a_rows a;
                             d_block := final |};
                w_energy := map stat_energy stats;
                w_order := map stat_order stats;
                w_ratio := map stat_ratio stats |}
    | None => None
    end.
Proof.
  intros Hr. unfold worker, worker_loop.
  pose proof (loop_evolve (a_rows a) nmax temp (a_above a) (a_below a)
                ds hs (Z.to_nat nsteps) 0
                (worker_init (a_rows a) nmax nsteps (a_block a))
                _ _ (a_block a) [] [] []
                (worker_init_frame (a_rows a) nmax nsteps (a_block a) Hr)
                eq_refl eq_refl eq_refl eq_refl eq_refl eq_refl) as H.
  destruct (evolve (a_rows a) nmax temp (seq 0 (Z.to_nat nsteps)) ds
              (a_block a)) as [[final stats] |].
  - destruct H as (st' & g1' & g2' & L & F & E1 & E2 & E3).
    rewrite L. unfold worker_finish.
    rewrite F, interior_frame, E1, E2, E3. reflexivity.
  - now rewrite H.
Qed.

(** X12: a worker evolves its block on its own.  For a block with a
    row count that is not negative, the worker hands over exactly the
    block swept step after step with the wrap-around inside the block,
    and the ratio, energy and order of the block after each sweep,
    whatever rows arrive from its neighbours; it raises exactly when a
    sweep or an order parameter of that evolution raises. *)
Theorem worker_evolves_alone (nsteps nmax : Z) (temp : R) (a : assignment)
  (ds : nat -> draws) (hs : nat -> halo) :
  (0 <= a_rows a)%Z ->
  worker nsteps nmax temp a ds hs
  = match evolve (a_rows a) nmax temp (seq 0 (Z.to_nat nsteps)) ds
            (a_block a) with
    | Some (final, stats) =>
        Some {| w_done := {| d_offset := a_offset a; d_rows := a_rows a;
                             d_block := final |};
                w_energy := map stat_energy stats;
                w_order := map stat_order stats;
                w_ratio := map stat_ratio stats |}
    | None => None
    end.
Proof.
  intros Hr.
  exact (worker_evolve nsteps nmax temp a ds hs Hr).
Qed.

Lemma worker_evolves_alone_witness :
  worker 1 1 1
    {| a_dest := 1; a_offset := 0; a_rows := 1; a_above := 1;
       a_below := 1; a_block := [[0]] |} draws_zero halo_zero
  = match evolve 1 1 1 (seq 0 (Z.to_nat 1)) draws_zero [[0]] with
    | Some (final, stats) =>
        Some {| w_done := {| d_offset := 0; d_rows := 1;
                             d_block := final |};
                w_energy := map stat_energy stats;
                w_order := map stat_order stats;
                w_ratio := map stat_ratio stats |}
    | None => None
    end.
Proof.
  apply (worker_evolves_alone 1 1 1
           {| a_dest := 1; a_offset := 0; a_rows := 1; a_above := 1;
              a_below := 1; a_block := [[0]] |}).
  simpl. lia.
Defined.

(** ** The single-process run *)

Lemma setitem_app {A : Type} (done : list A) (x v : A) (t : list A) k :
  length done = k ->
  Py.setitem (done ++ x :: t) (Z.of_nat k) v = Some (done ++ v :: t).
Proof.
  intros Hk. unfold Py.setitem.
  rewrite index_front by (rewrite length_app; simpl; lia).
  now rewrite set_nth_app.
Qed.

Lemma np_loop_evolve nmax temp ds m :
  forall k st (de dr dd : list R),
    run_energy st = de ++ zeros m ->
    run_ratio st = dr ++ zeros m ->
    run_order st = dd ++ zeros m ->
    length de = k -> length dr = k -> length dd = k ->
    np_loop nmax temp (seq k m) ds st
    = match evolve nmax nmax temp (seq k m) ds (run_lattice st) with
      | Some (final, stats) =>
          Some {| run_lattice := final;
                  run_energy := de ++ map stat_energy stats;
                  run_ratio := dr ++ map stat_ratio stats;
                  run_order := dd ++ map stat_order stats |}
      | None => None
      end.
Proof.
  induction m as [| m IH]; intros k st de dr dd He Hr Ho Le Lr Ld.
  - cbn [seq evolve np_loop map]. cbn [zeros repeat] in He, Hr, Ho.
    rewrite <- He, <- Hr, <- Ho. now destruct st.
  - cbn [seq evolve np_loop]. unfold np_body, MC_step_np, get_order_np.
    destruct (MC_step (run_lattice st) nmax nmax temp (ds k))
      as [[sw ra] |]; [| reflexivity].
    rewrite He, Hr, Ho. change (zeros (S m)) with (0 :: zeros m).
    rewrite !setitem_app by assumption.
    destruct (get_order sw nmax nmax) as [o |]; [| reflexivity].
    rewrite setitem_app by assumption.
    rewrite (IH (S k) _ (de ++ [all_energy sw]) (dr ++ [ra]) (dd ++ [o]));
      cbn [run_lattice run_energy run_ratio run_order];
      try (now rewrite <- app_assoc);
      try (rewrite length_app; simpl; lia).
    destruct (evolve nmax nmax temp (seq (S k) m) ds sw)
      as [[final stats] |]; [| reflexivity].
    cbn [map stat_energy stat_ratio stat_order fst snd].
    now rewrite <- !app_assoc.
Qed.

Lemma np_run_evolve (nsteps nmax : Z) (temp : R) (lattice : array2)
  (ds : nat -> draws) :
  (0 <= nsteps)%Z ->
  np_run nsteps nmax temp lattice ds
  = match get_order lattice nmax nmax with
    | Some o0 =>
        match evolve nmax nmax temp (seq 1 (Z.to_nat nsteps)) ds
                lattice with
        | Some (final, stats) =>
            Some {| run_lattice := final;
                    run_energy := all_energy lattice
                                  :: map stat_energy stats;
                    run_ratio := 0.5 :: map stat_ratio stats;
                    run_order := o0 :: map stat_order stats |}
        | None => None
        end
    | None => None
    end.
Proof.
  intros Hn. unfold np_run, get_order_np.
  replace (Z.to_nat (nsteps + 1)) with (S (Z.to_nat nsteps)) by lia.
  change (zeros (S (Z.to_nat nsteps))) with (0 :: zeros (Z.to_nat nsteps)).
  change (Py.setitem (0 :: zeros (Z.to_nat nsteps)) 0)
    with (Py.setitem ([] ++ 0 :: zeros (Z.to_nat nsteps)) (Z.of_nat 0)).
  rewrite !setitem_app by reflexivity.
  destruct (get_order lattice nmax nmax) as [o0 |]; [| reflexivity].
  rewrite setitem_app by reflexivity. cbn [app].
  match goal with
  | |- np_loop _ _ _ _ ?s = _ =>
      rewrite (np_loop_evolve nmax temp ds (Z.to_nat nsteps) 1 s
                 [all_energy lattice] [0.5] [o0]) by reflexivity
  end.
  reflexivity.
Qed.

(** X13: one simulation of the single-process driver, for
    [nsteps >= 0].  Entry 0 of the three series is the energy of the
    initial lattice, 0.5 and the order parameter of the initial lattice;
    entry [it] holds the ratio of sweep [it] and the energy and order of
    the lattice after [it] sweeps; the run raises exactly when the order
    parameter of the initial lattice, a sweep or a later order parameter
    raises. *)
Theorem np_run_series (nsteps nmax : Z) (temp : R) (lattice : array2)
  (ds : nat -> draws) :
  (0 <= nsteps)%Z ->
  np_run nsteps nmax temp lattice ds
  = match get_order lattice nmax nmax with
    | Some o0 =>
        match evolve nmax nmax temp (seq 1 (Z.to_nat nsteps)) ds
                lattice with
        | Some (final, stats) =>
            Some {| run_lattice := final;
                    run_energy := all_energy lattice
                                  :: map stat_energy stats;
                    run_ratio := 0.5 :: map stat_ratio stats;
                    run_order := o0 :: map stat_order stats |}
        | None => None
        end
    | None => None
    end.
Proof.
  intros Hn.
  exact (np_run_evolve nsteps nmax temp lattice ds Hn).
Qed.

Lemma np_run_series_witness :
  np_run 0 1 1 [[0]] draws_zero
  = match get_order [[0]] 1 1 with
    | Some o0 =>
        Some {| run_lattice := [[0]];
                run_energy := [all_energy [[0]]];
                run_ratio := [0.5];
                run_order := [o0] |}
    | None => None
    end.
Proof. apply (np_run_series 0 1 1 [[0]] draws_zero). lia. Defined.

(** ** Collecting blocks that lie end to end *)

Lemma gather_tiled msgs :
  forall o buffer,
    tiled o msgs -> (0 <= o)%Z ->
    (o + rows_of_msgs msgs <= Z.of_nat (length buffer))%Z ->
    gather buffer msgs
    = Some (firstn (Z.to_nat o) buffer
            ++ concat (map d_block msgs)
            ++ skipn (Z.to_nat (o + rows_of_msgs msgs)) buffer).
Proof.
  induction msgs as [| m ms IH]; intros o buffer Ht Ho Hb.
  - cbn [gather map concat rows_of_msgs fold_right app].
    rewrite Z.add_0_r. now rewrite firstn_skipn.
  - cbn [tiled] in Ht. destruct Ht as (Eo & Hr & Hl & Ht).
    cbn [rows_of_msgs fold_right] in Hb |- *.
    fold (rows_of_msgs ms) in Hb |- *.
    assert (Hms : (0 <= rows_of_msgs ms)%Z).
    { clear - Ht. revert Ht. generalize (o + d_rows m)%Z.
      induction ms as [| x ms IHm]; intros z Hz; cbn; [lia |].
      cbn [tiled] in Hz. destruct Hz as (_ & Hx & _ & Hz).
      specialize (IHm _ Hz). fold (rows_of_msgs ms). lia. }
    cbn [gather]. unfold Py.slice_fill.
    rewrite Eo, !bound_inside by lia.
    replace (Z.to_nat (o + d_rows m) - Z.to_nat o)%nat
      with (Z.to_nat (d_rows m)) by lia.
    assert (Hlen : length (d_block m) = Z.to_nat (d_rows m)) by lia.
    rewrite Hlen, Nat.eqb_refl.
    remember (Z.to_nat o) as k eqn:Ek.
    remember (Z.to_nat (d_rows m)) as r eqn:Er.
    remember (firstn k buffer ++ d_block m ++ skipn (k + r) buffer)
      as buffer' eqn:Eb.
    assert (Hl' : length buffer' = length buffer).
    { rewrite Eb, !length_app, Hlen, length_firstn, length_skipn. lia. }
    rewrite (IH (o + d_rows m)%Z buffer' Ht) by lia.
    f_equal.
    replace (Z.to_nat (o + d_rows m)) with (k + r)%nat by lia.
    replace (Z.to_nat (o + d_rows m + rows_of_msgs ms))
      with (k + r + Z.to_nat (rows_of_msgs ms))%nat by lia.
    replace (Z.to_nat (o + (d_rows m + rows_of_msgs ms)))
      with (k + r + Z.to_nat (rows_of_msgs ms))%nat by lia.
    assert (Hf : firstn (k + r) buffer' = firstn k buffer ++ d_block m).
    { rewrite Eb, app_assoc, firstn_app.
      rewrite length_app, Hlen, length_firstn.
      replace (k + r - (Nat.min k (length buffer) + r))%nat
        with 0%nat by lia.
      simpl. rewrite app_nil_r. apply firstn_all2.
      rewrite length_app, Hlen, length_firstn. lia. }
    assert (Hk : skipn (k + r + Z.to_nat (rows_of_msgs ms)) buffer'
                 = skipn (k + r + Z.to_nat (rows_of_msgs ms)) buffer).
    { rewrite Eb, app_assoc, skipn_app.
      rewrite length_app, Hlen, length_firstn.
      rewrite (skipn_all2 (firstn k buffer ++ _))
        by (rewrite length_app, Hlen, length_firstn; lia).
      simpl. rewrite skipn_skipn. f_equal. lia. }
    rewrite Hf, Hk. cbn [map concat]. now rewrite <- !app_assoc.
Qed.

(** X14: collecting blocks that lie one after the other from row [o] on,
    each with the number of rows it announces, inside a buffer: the rows
    before [o] and after the last block are kept, the rows in between
    become the blocks laid end to end. *)
Theorem gather_end_to_end (msgs : list done_msg) (o : Z) (buffer : array2) :
  tiled o msgs -> (0 <= o)%Z ->
  (o + rows_of_msgs msgs <= Z.of_nat (length buffer))%Z ->
  gather buffer msgs
  = Some (firstn (Z.to_nat o) buffer
          ++ concat (map d_block msgs)
          ++ skipn (Z.to_nat (o + rows_of_msgs msgs)) buffer).
Proof.
  intros Ht Ho Hb.
  exact (gather_tiled msgs o buffer Ht Ho Hb).
Qed.

Lemma gather_end_to_end_witness :
  gather [[0]; [0]; [0]; [0]]
    [{| d_offset := 1; d_rows := 1; d_block := [[1]] |};
     {| d_offset := 2; d_rows := 1; d_block := [[2]] |}]
  = Some [[0]; [1]; [2]; [0]].
Proof.
  apply (gather_end_to_end
           [{| d_offset := 1; d_rows := 1; d_block := [[1]] |};
            {| d_offset := 2; d_rows := 1; d_block := [[2]] |}]
           1 [[0]; [0]; [0]; [0]]).
  - simpl. repeat split; lia.
  - lia.
  - simpl. lia.
Defined.

(** ** The sweep keeps the number of rows *)

Lemma length_assign1 {A : Type} (m : list bool) (a v : list A) :
  length (fst (assign1 m a v)) = length a.
Proof.
  revert a v. induction m as [| b m IH]; intros [| x a] v; simpl; auto.
  destruct b.
  - destruct v as [| y v]; [reflexivity |].
    specialize (IH a v). destruct (assign1 m a v). simpl in *. now rewrite IH.
  - specialize (IH a v). destruct (assign1 m a v). simpl in *. now rewrite IH.
Qed.

Lemma length_assign2 {A : Type} (m : list (list bool))
  (a : list (list A)) (v : list A) :
  length (assign2 m a v) = length a.
Proof.
  revert a v. induction m as [| mr m IH]; intros [| ar a] v; simpl; auto.
  destruct (assign1 mr ar v). simpl. now rewrite IH.
Qed.

Lemma MC_step_length arr rows nmax Ts d arr' ratio :
  MC_step arr rows nmax Ts d = Some (arr', ratio) ->
  length arr' = length arr.
Proof.
  unfold MC_step.
  destruct (Rlt_dec (0.1 + Ts) 0); [discriminate |].
  unfold mc_vec_diagonals, subtract_rejected, add_masked. intros [= <- _].
  now rewrite !length_assign2.
Qed.

Lemma evolve_length rows nmax temp ds its :
  forall block final stats,
    evolve rows nmax temp its ds block = Some (final, stats) ->
    length final = length block /\ length stats = length its.
Proof.
  induction its as [| it its IH]; intros block final stats; cbn [evolve].
  - intros [= <- <-]. split; reflexivity.
  - destruct (MC_step block rows nmax temp (ds it)) as [[sw ra] |] eqn:M;
      [| discriminate].
    destruct (get_order sw rows nmax) as [o |]; [| discriminate].
    destruct (evolve rows nmax temp its ds sw) as [[f s] |] eqn:E;
      [| discriminate].
    intros [= <- <-]. destruct (IH _ _ _ E) as [L1 L2].
    apply MC_step_length in M. cbn [length]. split; congruence.
Qed.

Lemma evolve_shift rows nmax temp (ds ds' : nat -> draws) m :
  (forall it, ds' (S it) = ds it) ->
  forall k block,
    evolve rows nmax temp (seq (S k) m) ds' block
    = evolve rows nmax temp (seq k m) ds block.
Proof.
  intros H. induction m as [| m IH]; intros k block; cbn [seq evolve].
  - reflexivity.
  - rewrite H.
    destruct (MC_step block rows nmax temp (ds k)) as [[sw ra] |];
      [| reflexivity].
    destruct (get_order sw rows nmax); [| reflexivity].
    now rewrite IH.
Qed.

(** ** The distributed run with one worker *)

Lemma partition_one (lattice : array2) (nmax : Z) :
  Z.of_nat (length lattice) = nmax ->
  partition lattice nmax 1
  = [{| a_dest := 1; a_offset := 0; a_rows := nmax; a_above := 1;
        a_below := 1; a_block := lattice |}].
Proof.
  intros Hl. unfold partition, worker_ids.
  change (map Z.of_nat (seq 1 (Z.to_nat 1))) with [1%Z].
  cbn [distribute]. rewrite Z.div_1_r, Z.mod_1_r.
  change (rows_of nmax 0 1) with nmax.
  change (neighbours 1 1) with (1%Z, 1%Z). cbn iota.
  f_equal. f_equal.
  unfold Py.slice. rewrite !bound_inside by lia.
  cbn [skipn Z.to_nat]. rewrite Z.add_0_l, Nat.sub_0_r.
  rewrite <- Hl, Nat2Z.id. apply firstn_all.
Qed.

Lemma reduce_sum_one (w : array1) n :
  length w = n -> reduce_sum (zeros n) [w] = w.
Proof.
  intros <-. unfold reduce_sum, zeros. cbn [fold_left].
  induction w as [| x w IH]; cbn; [reflexivity |].
  rewrite IH. f_equal. lra.
Qed.

Lemma map_div_one (w : array1) : map (fun x => x / IZR 1) w = w.
Proof.
  induction w as [| x w IH]; cbn [map]; [reflexivity |].
  rewrite IH. f_equal. lra.
Qed.

(** X15: with one worker the distributed run is the single-process
    run.  For [nsteps >= 0] and a lattice of [nmax] rows, the
    coordinator ends with the lattice and the three series that one
    simulation of the single-process driver gives on the same lattice
    with the draws of the worker (the draws of step [it] of the worker
    being those of step [it+1] of the single-process loop), and one
    raises exactly when the other does. *)
Theorem one_worker_is_single_process (nsteps nmax : Z) (temp : R)
  (lattice : array2) (ds : Z -> nat -> draws) (hs : Z -> nat -> halo) :
  (0 <= nsteps)%Z ->
  Z.of_nat (length lattice) = nmax ->
  mpi_master nsteps nmax temp 1 lattice ds hs
  = np_run nsteps nmax temp lattice (fun it => ds 1%Z (it - 1)%nat).
Proof.
  intros Hn Hl.
  rewrite np_run_evolve by assumption.
  unfold mpi_master.
  change (bad_worker_count 1) with false. cbn iota.
  destruct (Z.ltb_spec nsteps 0) as [L | _]; [lia |].
  destruct (get_order lattice nmax nmax) as [o0 |]; [| reflexivity].
  rewrite partition_one by assumption.
  unfold run_workers. cbn [map a_dest].
  rewrite worker_evolve by (cbn [a_rows]; lia).
  cbn [a_rows a_block a_offset].
  rewrite (evolve_shift nmax nmax temp (ds 1%Z)
             (fun it => ds 1%Z (it - 1)%nat))
    by (intros it; f_equal; lia).
  destruct (evolve nmax nmax temp (seq 0 (Z.to_nat nsteps)) (ds 1%Z)
              lattice) as [[final stats] |] eqn:E; [| reflexivity].
  destruct (evolve_length _ _ _ _ _ _ _ _ E) as [Lf Ls].
  rewrite length_seq in Ls.
  cbn [all_some map w_done w_energy w_order w_ratio gather
       d_offset d_rows d_block].
  unfold Py.slice_fill. rewrite Z.add_0_l, !bound_inside by lia.
  cbn [Z.to_nat].
  replace (Z.to_nat nmax - 0)%nat with (length final) by lia.
  rewrite Nat.eqb_refl. cbn [firstn app Nat.add].
  rewrite skipn_all2 by lia. rewrite app_nil_r.
  rewrite !reduce_sum_one by (rewrite length_map; exact Ls).
  unfold energy_series, ratio_series, order_series.
  now rewrite !map_div_one.
Qed.

Lemma one_worker_is_single_process_witness :
  mpi_master 1 1 1 1 [[0]] (fun _ => draws_zero) (fun _ => halo_zero)
  = np_run 1 1 1 [[0]] (fun it => draws_zero (it - 1)%nat).
Proof.
  apply (one_worker_is_single_process 1 1 1 [[0]]
           (fun _ => draws_zero) (fun _ => halo_zero)).
  - lia.
  - reflexivity.
Defined.

(** ** The distributed run, block by block *)

Lemma all_some_map {A B : Type} (f : A -> B) (l : list A) :
  all_some (map (fun a => Some (f a)) l) = Some (map f l).
Proof.
  induction l as [| x l IH]; cbn [map all_some]; [reflexivity |].
  now rewrite IH.
Qed.

Lemma tiled_distribute lattice P averow extra (final : assignment -> array2)
  ids :
  (0 <= averow)%Z ->
  forall offset,
    (forall a, In a (distribute lattice P averow extra ids offset) ->
       Z.of_nat (length (final a)) = a_rows a) ->
    tiled offset
      (map (fun a => {| d_offset := a_offset a; d_rows := a_rows a;
                        d_block := final a |})
           (distribute lattice P averow extra ids offset)) /\
    rows_of_msgs
      (map (fun a => {| d_offset := a_offset a; d_rows := a_rows a;
                        d_block := final a |})
           (distribute lattice P averow extra ids offset))
    = total_rows (distribute lattice P averow extra ids offset).
Proof.
  intros Hav. induction ids as [| i ids IH]; intros offset Hlen.
  - cbn. split; [exact I | reflexivity].
  - cbn [distribute] in *. destruct (neighbours P i) as [ab be].
    cbn [map tiled rows_of_msgs fold_right total_rows d_offset d_rows
         d_block a_offset a_rows] in *.
    destruct (IH (offset + rows_of averow extra i)%Z) as [T R].
    { intros a Ha. apply Hlen. now right. }
    pose proof (Hlen _ (or_introl eq_refl)) as H0. cbn [a_rows] in H0.
    split.
    + repeat split; try assumption.
      now apply rows_of_nonneg.
    + fold (rows_of_msgs
              (map (fun a => {| d_offset := a_offset a; d_rows := a_rows a;
                                d_block := final a |})
                 (distribute lattice P averow extra ids
                    (offset + rows_of averow extra i)))).
      fold (total_rows (distribute lattice P averow extra ids
                          (offset + rows_of averow extra i))).
      now rewrite R.
Qed.

Lemma partition_facts (lattice : array2) (nmax P : Z) :
  (1 <= P)%Z -> Z.of_nat (length lattice) = nmax ->
  total_rows (partition lattice nmax P) = nmax /\
  Forall (fun a => Z.of_nat (length (a_block a)) = a_rows a
                   /\ (0 <= a_rows a)%Z)
    (partition lattice nmax P).
Proof.
  intros HP Hl.
  assert (Hav : (0 <= nmax / P)%Z) by (apply Z.div_pos; lia).
  assert (Htot : total_rows (partition lattice nmax P) = nmax)
    by now apply total_rows_partition.
  split; [exact Htot |].
  destruct (distribute_blocks lattice P (nmax / P) (nmax mod P) Hav
              (worker_ids P) 0 ltac:(lia)) as [_ Hb].
  { fold (partition lattice nmax P). lia. }
  fold (partition lattice nmax P) in Hb.
  eapply Forall_impl; [| exact Hb].
  intros a Ha. cbn beta in *. split; [exact Ha | lia].
Qed.

Lemma mpi_master_blocks (nsteps nmax P : Z) (temp : R) (lattice : array2)
  (ds : Z -> nat -> draws) (hs : Z -> nat -> halo) (o0 : R)
  (final : assignment -> array2) (stats : assignment -> list (R * R * R)) :
  (1 <= P <= MAXWORKER)%Z ->
  (0 <= nsteps)%Z ->
  Z.of_nat (length lattice) = nmax ->
  get_order lattice nmax nmax = Some o0 ->
  (forall a, In a (partition lattice nmax P) ->
     evolve (a_rows a) nmax temp (seq 0 (Z.to_nat nsteps)) (ds (a_dest a))
       (a_block a) = Some (final a, stats a)) ->
  let asg := partition lattice nmax P in
  let n := Z.to_nat nsteps in
  mpi_master nsteps nmax temp P lattice ds hs
  = Some {| run_lattice := concat (map final asg);
            run_energy :=
              all_energy lattice
              :: reduce_sum (zeros n)
                   (map (fun a => map stat_energy (stats a)) asg);
            run_ratio :=
              ratio_series
                (reduce_sum (zeros n)
                   (map (fun a => map stat_ratio (stats a)) asg)) P;
            run_order :=
              order_series o0
                (reduce_sum (zeros n)
                   (map (fun a => map stat_order (stats a)) asg)) P |}.
Proof.
  intros HP Hn Hl Ho Hev asg n.
  destruct (partition_facts lattice nmax P ltac:(lia) Hl) as [Htot Hfor].
  fold asg in Htot, Hfor, Hev. rewrite Forall_forall in Hfor.
  unfold mpi_master.
  assert (Hok : bad_worker_count P = false).
  { unfold bad_worker_count.
    destruct (Z.gtb_spec P MAXWORKER); [lia |].
    destruct (Z.ltb_spec P MINWORKER); [unfold MINWORKER in *; lia |].
    reflexivity. }
  rewrite Hok. destruct (Z.ltb_spec nsteps 0) as [L | _]; [lia |].
  rewrite Ho. fold asg. fold n.
  assert (Hrun : run_workers nsteps nmax temp asg ds hs
                 = map (fun a => Some
                     {| w_done := {| d_offset := a_offset a;
                                     d_rows := a_rows a;
                                     d_block := final a |};
                        w_energy := map stat_energy (stats a);
                        w_order := map stat_order (stats a);
                        w_ratio := map stat_ratio (stats a) |}) asg).
  { unfold run_workers. apply map_ext_in. intros a Ha.
    rewrite worker_evolve by (apply (Hfor a Ha)).
    now rewrite (Hev a Ha). }
  rewrite Hrun, all_some_map, !map_map. cbn [w_done w_energy w_order w_ratio].
  assert (Hav : (0 <= nmax / P)%Z) by (apply Z.div_pos; lia).
  destruct (tiled_distribute lattice P (nmax / P) (nmax mod P) final
              (worker_ids P) Hav 0) as [T R].
  { intros a Ha. fold (partition lattice nmax P) in Ha. fold asg in Ha.
    destruct (Hfor a Ha) as [Hb _].
    destruct (evolve_length _ _ _ _ _ _ _ _ (Hev a Ha)) as [Lf _].
    lia. }
  fold (partition lattice nmax P) in T, R. fold asg in T, R.
  rewrite (gather_tiled _ 0 lattice T) by (rewrite ?R; lia).
  rewrite R, Htot, Z.add_0_l. cbn [Z.to_nat firstn app].
  rewrite skipn_all2 by lia. rewrite app_nil_r, map_map.
  cbn [d_block]. reflexivity.
Qed.

(** X16: a distributed run is a set of blocks that evolve on their own.
    For a valid worker count, [nsteps >= 0] and a lattice of [nmax] rows
    on which the initial order parameter and the evolution of every
    block return, the coordinator ends with the blocks, each swept with
    the wrap-around inside itself, laid end to end; its energy series is
    the energy of the initial lattice followed by the sums of the
    energies of the blocks, and its ratio and order series are the sums
    of the blocks' values divided by the number of workers. *)
Theorem distributed_run_is_blocks (nsteps nmax P : Z) (temp : R)
  (lattice : array2) (ds : Z -> nat -> draws) (hs : Z -> nat -> halo)
  (o0 : R) (final : assignment -> array2)
  (stats : assignment -> list (R * R * R)) :
  (1 <= P <= MAXWORKER)%Z ->
  (0 <= nsteps)%Z ->
  Z.of_nat (length lattice) = nmax ->
  get_order lattice nmax nmax = Some o0 ->
  (forall a, In a (partition lattice nmax P) ->
     evolve (a_rows a) nmax temp (seq 0 (Z.to_nat nsteps)) (ds (a_dest a))
       (a_block a) = Some (final a, stats a)) ->
  let asg := partition lattice nmax P in
  let n := Z.to_nat nsteps in
  mpi_master nsteps nmax temp P lattice ds hs
  = Some {| run_lattice := concat (map final asg);
            run_energy :=
              all_energy lattice
              :: reduce_sum (zeros n)
                   (map (fun a => map stat_energy (stats a)) asg);
            run_ratio :=
              ratio_series
                (reduce_sum (zeros n)
                   (map (fun a => map stat_ratio (stats a)) asg)) P;
            run_order :=
              order_series o0
                (reduce_sum (zeros n)
                   (map (fun a => map stat_order (stats a)) asg)) P |}.
Proof.
  intros HP Hn Hl Ho Hev.
  exact (mpi_master_blocks nsteps nmax P temp lattice ds hs o0 final stats
           HP Hn Hl Ho Hev).
Qed.

Lemma distributed_run_is_blocks_witness :
  let lattice := [[0; 1]; [2; 3]] in
  option_map run_lattice
    (mpi_master 0 2 1 2 lattice (fun _ => draws_zero) (fun _ => halo_zero))
  = Some lattice.
Proof.
  intros lattice.
  rewrite (distributed_run_is_blocks 0 2 2 1 lattice
             (fun _ => draws_zero) (fun _ => halo_zero)
             (eig_max (Qab lattice 2 2)) a_block (fun _ => [])).
  - reflexivity.
  - unfold MAXWORKER. lia.
  - lia.
  - reflexivity.
  - reflexivity.
  - intros a _. reflexivity.
Defined.

(** ** The summary of the single-process driver *)

Lemma mean_cons (x : R) (l : array1) :
  mean (x :: l) = (x + sum1 l) / INR (S (length l)).
Proof. reflexivity. Qed.

(** X17: the summary line of the single-process driver, for
    [nsteps >= 1], when both simulations return.  It is made from the
    second simulation alone: its order value is the order parameter
    before the last sweep (entry [nsteps-1] of the series, the initial
    value when [nsteps = 1]), and its mean ratio averages the [nsteps]
    ratios of the sweeps together with the initial entry 0.5. *)
Theorem np_main_summary (nsteps nmax : Z) (temp runtime : R)
  (lattice1 lattice2 : array2) (ds1 ds2 : nat -> draws)
  (st1 : run_state) (o0 : R) (final : array2)
  (stats : list (R * R * R)) :
  (1 <= nsteps)%Z ->
  np_run nsteps nmax temp lattice1 ds1 = Some st1 ->
  get_order lattice2 nmax nmax = Some o0 ->
  evolve nmax nmax temp (seq 1 (Z.to_nat nsteps)) ds2 lattice2
  = Some (final, stats) ->
  np_main nsteps nmax temp lattice1 ds1 lattice2 ds2 runtime
  = Some {| s_size := nmax; s_steps := nsteps; s_temp := temp;
            s_order := nth (Z.to_nat (nsteps - 1))
                         (o0 :: map stat_order stats) 0;
            s_mean_ratio :=
              (0.5 + sum1 (map stat_ratio stats)) / INR (Z.to_nat nsteps + 1);
            s_runtime := runtime |}.
Proof.
  intros Hn H1 Ho He. unfold np_main. rewrite H1.
  rewrite np_run_evolve by lia. rewrite Ho, He.
  destruct (evolve_length _ _ _ _ _ _ _ _ He) as [_ Ls].
  rewrite length_seq in Ls.
  cbn [run_order run_ratio]. unfold final_outputs, Py.getitem.
  replace (nsteps - 1)%Z with (Z.of_nat (Z.to_nat (nsteps - 1))) at 1
    by lia.
  rewrite index_front by (cbn [length]; rewrite length_map; lia).
  rewrite (nth_error_nth' _ 0)
    by (cbn [length]; rewrite length_map; lia).
  rewrite mean_cons, length_map, Ls.
  replace (S (Z.to_nat nsteps)) with (Z.to_nat nsteps + 1)%nat by lia.
  reflexivity.
Qed.

Lemma evolve_runs rows nmax temp ds its :
  0 <= 0.1 + temp -> (0 < rows)%Z -> (0 < nmax)%Z ->
  (forall it,
     shape (aran (ds it)) (Z.to_nat rows) (Z.to_nat nmax) /\
     shape (boltz_random (ds it)) (Z.to_nat rows) (Z.to_nat nmax)) ->
  forall block,
    shape block (Z.to_nat rows) (Z.to_nat nmax) ->
    exists final stats,
      evolve rows nmax temp its ds block = Some (final, stats) /\
      shape final (Z.to_nat rows) (Z.to_nat nmax).
Proof.
  intros Hs Hr Hn Hd.
  induction its as [| it its IH]; intros block Hb; cbn [evolve].
  - exists block, []. split; [reflexivity | exact Hb].
  - destruct (Hd it) as [Sa Su].
    destruct (MC_step_runs block rows nmax temp (ds it) Hs)
      as (sw & ra & HM).
    pose proof (MC_step_shape _ _ _ _ _ _ _ Hb Sa Su HM) as Hsw.
    rewrite HM, (get_order_runs sw rows nmax Hr Hn Hsw).
    destruct (IH sw Hsw) as (final & stats & E & Sf).
    rewrite E. eauto.
Qed.

Lemma np_main_summary_witness :
  exists s,
    np_main 1 1 1 [[0]] draws_zero [[0]] draws_zero 0 = Some s /\
    s_steps s = 1%Z.
Proof.
  destruct (evolve_runs 1 1 1 draws_zero (seq 1 (Z.to_nat 1))
              ltac:(lra) ltac:(lia) ltac:(lia) draws_zero_shape
              [[0]] block_zero_shape) as (final & stats & E & _).
  pose proof (get_order_runs [[0]] 1 1 ltac:(lia) ltac:(lia)
                block_zero_shape) as Ho.
  pose proof (np_run_evolve 1 1 1 [[0]] draws_zero ltac:(lia)) as Hrun.
  rewrite Ho, E in Hrun.
  eexists. split.
  - exact (np_main_summary 1 1 1 0 [[0]] [[0]] draws_zero draws_zero
             _ _ final stats ltac:(lia) Hrun Ho E).
  - reflexivity.
Defined.
